(** * A verified model of the [WebCrawler] of [main.py]

    The development embeds the three methods of the class ([crawl],
    [search], [print_results]) together with the part of CPython's
    [urllib.parse] that [crawl] calls ([urlparse], [urljoin]), and proves
    the properties of the traversal, of the index and of the output.

    Conventions.
    - A Python [str] is a Rocq [string] holding its UTF-8 bytes.
      [str.lower] is computed on ASCII characters; to the others it
      applies the case mappings of the Unicode database, which are a
      parameter.
    - An exception is represented by its message ([str(e)]).
    - [requests.get] and [BeautifulSoup] are outside the program: they are
      section variables, total functions that either raise or return.
    - Python's recursion limit is not modelled: the recursion of [crawl]
      is bounded by an explicit fuel argument only. *)

From Stdlib Require Import String Ascii List Bool Arith Lia.
From stdpp Require Import base gmap strings list.
Import ListNotations.

Local Open Scope string_scope.
Local Open Scope list_scope.

(** An exception, identified with the text that [str(e)] yields. *)
Definition Exception : Type := string.

(** ** Python string primitives *)

Module Str.

(** [c1 <= code(c) <= c2] on character codes. *)
Definition between (lo hi : nat) (c : ascii) : bool :=
  (lo <=? nat_of_ascii c)%nat && (nat_of_ascii c <=? hi)%nat.

Definition is_upper (c : ascii) : bool := between 65 90 c.
Definition is_lower (c : ascii) : bool := between 97 122 c.
Definition is_alpha (c : ascii) : bool := is_upper c || is_lower c.
Definition is_digit (c : ascii) : bool := between 48 57 c.
Definition is_ascii (c : ascii) : bool := (nat_of_ascii c <? 128)%nat.

(** [c.lower()] for one ASCII character. *)
Definition lower_char (c : ascii) : ascii :=
  if is_upper c then ascii_of_nat (nat_of_ascii c + 32) else c.

(** [s.lower()] for an ASCII [s]: only [A]..[Z] change. *)
Fixpoint ascii_lower (s : string) : string :=
  match s with
  | EmptyString => EmptyString
  | String c s' => String (lower_char c) (ascii_lower s')
  end.

(** [s.startswith(p)]. *)
Fixpoint startswith (s p : string) {struct p} : bool :=
  match p with
  | EmptyString => true
  | String c p' =>
      match s with
      | EmptyString => false
      | String d s' => if Ascii.eqb c d then startswith s' p' else false
      end
  end.

(** [sub in s]: substring test. *)
Fixpoint contains (s sub : string) : bool :=
  startswith s sub ||
  match s with
  | EmptyString => false
  | String _ s' => contains s' sub
  end.

(** [c in s] for a character. *)
Fixpoint has_char (c : ascii) (s : string) : bool :=
  match s with
  | EmptyString => false
  | String d s' => Ascii.eqb c d || has_char c s'
  end.

(** Splits [s] before the first character satisfying [p]
    ([(s, "")] when there is none). *)
Fixpoint break (p : ascii -> bool) (s : string) : string * string :=
  match s with
  | EmptyString => (EmptyString, EmptyString)
  | String c s' =>
      if p c then (EmptyString, s)
      else let '(a, b) := break p s' in (String c a, b)
  end.

(** [s.partition(c)]: [(before, found, after)]. *)
Definition partition (c : ascii) (s : string) : string * bool * string :=
  let '(a, b) := break (Ascii.eqb c) s in
  match b with
  | EmptyString => (a, false, EmptyString)
  | String _ b' => (a, true, b')
  end.

(** [s.split(c, 1)] when [c in s]; used under that guard only. *)
Definition split1 (c : ascii) (s : string) : string * string :=
  let '(a, _, b) := partition c s in (a, b).

(** [s.split(c)]: never empty, [""] splits into [[""]]. *)
Fixpoint split (c : ascii) (s : string) : list string :=
  match s with
  | EmptyString => [EmptyString]
  | String d s' =>
      if Ascii.eqb c d then EmptyString :: split c s'
      else match split c s' with
           | [] => [String d EmptyString]
           | x :: xs => String d x :: xs
           end
  end.

(** [sep.join(l)]. *)
Fixpoint join (sep : string) (l : list string) : string :=
  match l with
  | [] => EmptyString
  | [x] => x
  | x :: xs => x ++ sep ++ join sep xs
  end.

(** [s.lstrip(chars)] with the set of characters given as a predicate. *)
Fixpoint lstrip (p : ascii -> bool) (s : string) : string :=
  match s with
  | EmptyString => EmptyString
  | String c s' => if p c then lstrip p s' else s
  end.

Fixpoint rev_onto (s acc : string) : string :=
  match s with
  | EmptyString => acc
  | String c s' => rev_onto s' (String c acc)
  end.

Definition rev (s : string) : string := rev_onto s EmptyString.

Definition rstrip (p : ascii -> bool) (s : string) : string :=
  rev (lstrip p (rev s)).

(** [s.strip(chars)]. *)
Definition strip (p : ascii -> bool) (s : string) : string :=
  rstrip p (lstrip p s).

(** Removes every character satisfying [p]
    (a chain of [s.replace(b, "")]). *)
Fixpoint remove (p : ascii -> bool) (s : string) : string :=
  match s with
  | EmptyString => EmptyString
  | String c s' => if p c then remove p s' else String c (remove p s')
  end.

Fixpoint forallb (p : ascii -> bool) (s : string) : bool :=
  match s with
  | EmptyString => true
  | String c s' => p c && forallb p s'
  end.

(** [s[:n]] and [s[n:]]. *)
Fixpoint take (n : nat) (s : string) : string :=
  match n, s with
  | S n', String c s' => String c (take n' s')
  | _, _ => EmptyString
  end.

Fixpoint drop (n : nat) (s : string) : string :=
  match n, s with
  | S n', String _ s' => drop n' s'
  | _, _ => s
  end.

(** Python truthiness of a string. *)
Definition nonempty (s : string) : bool :=
  match s with EmptyString => false | _ => true end.

(** [s.isascii()]. *)
Definition isascii (s : string) : bool := forallb is_ascii s.

End Str.

(** ** [urllib.parse]: the functions [crawl] imports

    A transcription of [urlsplit], [urlparse], [urlunsplit], [urlunparse]
    and [urljoin] of CPython 3.11 for [str] arguments with
    [allow_fragments=True].  Two checks of [urlsplit] depend on other
    modules ([ipaddress] and [re] for a bracketed host, [unicodedata] for
    a non-ASCII netloc); they are parameters of the model and return the
    exception they raise, if any. *)

Module urllib.

Record ParseResult := {
  scheme : string;
  netloc : string;
  path : string;
  params : string;
  query : string;
  fragment : string
}.

Definition uses_relative : list string :=
  [""; "ftp"; "http"; "gopher"; "nntp"; "imap";
   "wais"; "file"; "https"; "shttp"; "mms";
   "prospero"; "rtsp"; "rtspu"; "sftp";
   "svn"; "svn+ssh"; "ws"; "wss"].

Definition uses_netloc : list string :=
  [""; "ftp"; "http"; "gopher"; "nntp"; "telnet";
   "imap"; "wais"; "file"; "mms"; "https"; "shttp";
   "snews"; "prospero"; "rtsp"; "rtspu"; "rsync";
   "svn"; "svn+ssh"; "sftp"; "nfs"; "git"; "git+ssh";
   "ws"; "wss"].

Definition uses_params : list string :=
  [""; "ftp"; "hdl"; "prospero"; "http"; "imap";
   "https"; "shttp"; "rtsp"; "rtspu"; "sip"; "sips";
   "mms"; "sftp"; "tel"].

(** [x in l] for a list of strings. *)
Definition mem (x : string) (l : list string) : bool :=
  existsb (String.eqb x) l.

Definition scheme_char (c : ascii) : bool :=
  Str.is_alpha c || Str.is_digit c || Str.has_char c "+-.".

(** [_WHATWG_C0_CONTROL_OR_SPACE]: the codes 0 to 0x20. *)
Definition c0_control_or_space (c : ascii) : bool :=
  (nat_of_ascii c <=? 32)%nat.

(** [_UNSAFE_URL_BYTES_TO_REMOVE]: tab, carriage return, line feed. *)
Definition unsafe_url_byte (c : ascii) : bool :=
  let n := nat_of_ascii c in
  (n =? 9)%nat || (n =? 13)%nat || (n =? 10)%nat.

(** [_splitnetloc(url, 2)]. *)
Definition splitnetloc2 (url : string) : string * string :=
  Str.break (fun c => Str.has_char c "/?#") (Str.drop 2 url).

(** [_splitparams]. *)
Definition splitparams (url : string) : string * string :=
  if Str.has_char "/" url then
    (* i = url.find(';', url.rfind('/')) *)
    let '(a, b) := Str.break (Ascii.eqb "/") (Str.rev url) in
    let tail := Str.rev a in               (* after the last '/' *)
    let head := Str.take (String.length url - String.length tail) url in
    let '(t1, found, t2) := Str.partition ";" tail in
    if found then (head +:+ t1, t2) else (url, "")
  else
    Str.split1 ";" url.

Section Checks.

(** [_check_bracketed_netloc], called when the netloc has both
    brackets. *)
Variable check_bracketed_netloc : string -> option Exception.
(** The NFKC part of [_checknetloc], reached for a non-ASCII netloc. *)
Variable check_nfkc : string -> option Exception.

Definition checknetloc (netloc : string) : option Exception :=
  if negb (Str.nonempty netloc) || Str.forallb Str.is_ascii netloc
  then None
  else check_nfkc netloc.

(** [urlsplit(url, scheme)]: scheme, netloc, path, query, fragment. *)
Definition urlsplit (url scheme : string)
  : Exception + (string * string * string * string * string) :=
  let url := Str.lstrip c0_control_or_space url in
  let scheme := Str.strip c0_control_or_space scheme in
  let url := Str.remove unsafe_url_byte url in
  let scheme := Str.remove unsafe_url_byte scheme in
  (* i = url.find(':') *)
  let '(scheme, url) :=
    let '(pre, found, post) := Str.partition ":" url in
    match pre with
    | String c0 _ =>
        if found && Str.is_ascii c0 && Str.is_alpha c0
           && Str.forallb scheme_char pre
        then (Str.ascii_lower pre, post)
        else (scheme, url)
    | EmptyString => (scheme, url)
    end in
  let split_rest (netloc url : string) :=
    let '(url, fragment) :=
      if Str.has_char "#" url then Str.split1 "#" url else (url, "") in
    let '(url, query) :=
      if Str.has_char "?" url then Str.split1 "?" url else (url, "") in
    match checknetloc netloc with
    | Some e => inl e
    | None => inr (scheme, netloc, url, query, fragment)
    end in
  if String.eqb (Str.take 2 url) "//" then
    let '(netloc, url) := splitnetloc2 url in
    let lb := Str.has_char "[" netloc in
    let rb := Str.has_char "]" netloc in
    if (lb && negb rb) || (rb && negb lb) then inl "Invalid IPv6 URL"
    else
      match (if lb && rb then check_bracketed_netloc netloc else None) with
      | Some e => inl e
      | None => split_rest netloc url
      end
  else split_rest "" url.

(** [urlparse(url, scheme)]. *)
Definition urlparse (url scheme : string) : Exception + ParseResult :=
  match urlsplit url scheme with
  | inl e => inl e
  | inr (scheme, netloc, url, query, fragment) =>
      let '(url, params) :=
        if mem scheme uses_params && Str.has_char ";" url
        then splitparams url else (url, "") in
      inr {| scheme := scheme; netloc := netloc; path := url;
             params := params; query := query; fragment := fragment |}
  end.

End Checks.

(** [urlunsplit]. *)
Definition urlunsplit (scheme netloc url query fragment : string) : string :=
  let url :=
    if Str.nonempty netloc
       || (Str.nonempty scheme && mem scheme uses_netloc
           && negb (String.eqb (Str.take 2 url) "//"))
    then
      let url :=
        if Str.nonempty url && negb (String.eqb (Str.take 1 url) "/")
        then "/" +:+ url else url in
      "//" +:+ netloc +:+ url
    else url in
  let url := if Str.nonempty scheme then scheme +:+ ":" +:+ url else url in
  let url := if Str.nonempty query then url +:+ "?" +:+ query else url in
  if Str.nonempty fragment then url +:+ "#" +:+ fragment else url.

(** [urlunparse]. *)
Definition urlunparse (p : ParseResult) : string :=
  let url :=
    if Str.nonempty (params p) then path p +:+ ";" +:+ params p
    else path p in
  urlunsplit (scheme p) (netloc p) url (query p) (fragment p).

(** [segments[1:-1] = filter(None, segments[1:-1])]. *)
Definition filter_middle (segments : list string) : list string :=
  match segments with
  | [] => []
  | first :: rest =>
      match rest with
      | [] => [first]
      | _ => first :: List.filter Str.nonempty (removelast rest)
               ++ [List.last rest ""]
      end
  end.

(** The loop of [urljoin] over the segments. *)
Definition resolve_segments (segments : list string) : list string :=
  fold_left
    (fun resolved_path seg =>
       if String.eqb seg ".." then removelast resolved_path
       else if String.eqb seg "." then resolved_path
       else resolved_path ++ [seg])
    segments [].

Section Join.

Variable check_bracketed_netloc : string -> option Exception.
Variable check_nfkc : string -> option Exception.

(** [urljoin(base, url)]. *)
Definition urljoin (base url : string) : Exception + string :=
  if negb (Str.nonempty base) then inr url
  else if negb (Str.nonempty url) then inr base
  else
    match urlparse check_bracketed_netloc check_nfkc base "" with
    | inl e => inl e
    | inr b =>
    match urlparse check_bracketed_netloc check_nfkc url (scheme b) with
    | inl e => inl e
    | inr u =>
        if negb (String.eqb (scheme u) (scheme b))
           || negb (mem (scheme u) uses_relative)
        then inr url
        else if mem (scheme u) uses_netloc && Str.nonempty (netloc u)
        then inr (urlunparse u)
        else
          let netloc' :=
            if mem (scheme u) uses_netloc then netloc b else netloc u in
          if negb (Str.nonempty (path u)) && negb (Str.nonempty (params u))
          then
            inr (urlunparse
                   {| scheme := scheme u; netloc := netloc';
                      path := path b; params := params b;
                      query := if Str.nonempty (query u)
                               then query u else query b;
                      fragment := fragment u |})
          else
            let base_parts := Str.split "/" (path b) in
            let base_parts :=
              if Str.nonempty (List.last base_parts "")
              then removelast base_parts else base_parts in
            let segments :=
              if String.eqb (Str.take 1 (path u)) "/"
              then Str.split "/" (path u)
              else filter_middle (base_parts ++ Str.split "/" (path u)) in
            let resolved_path := resolve_segments segments in
            let resolved_path :=
              if mem (List.last segments "") ["."; ".."]
              then resolved_path ++ [""] else resolved_path in
            let joined := Str.join "/" resolved_path in
            inr (urlunparse
                   {| scheme := scheme u; netloc := netloc';
                      path := if Str.nonempty joined then joined else "/";
                      params := params u; query := query u;
                      fragment := fragment u |})
    end
    end.

End Join.

End urllib.


(** ** The state of a [WebCrawler] and of its environment *)

(** What [crawl] reads of [BeautifulSoup(response.text, 'html.parser')]:
    [soup.get_text()] and, for every element of [soup.find_all('a')] in
    document order, [link.get('href')] ([None] for an anchor without that
    attribute). *)
Record Soup := {
  get_text : string;
  find_all_a : list (option string)
}.

(** The actions of a run that can be observed from outside, in the order
    in which they happen. *)
Inductive event :=
| Call (url : string) (base_url : option string) (* [crawl] is entered *)
| Add (url : string)                             (* [self.visited.add(url)] *)
| Get (url : string)                             (* [requests.get(url)] *)
| Print (line : string).                         (* [print(line)] *)

(** [index] and [visited] are the two attributes of the object; [index] is
    a Python dict, kept as the list of its items in insertion order.
    [trace] is the history of the run so far. *)
Record World := {
  index : list (string * string);
  visited : gset string;
  trace : list event
}.

(** [WebCrawler()], in an environment where nothing has happened yet. *)
Definition init : World :=
  {| index := []; visited := ∅; trace := [] |}.

Definition log (ev : event) (w : World) : World :=
  {| index := index w; visited := visited w; trace := trace w ++ [ev] |}.

(** [d[k] = v] on a dict: an existing key keeps its place. *)
Fixpoint dict_set (k v : string) (d : list (string * string))
  : list (string * string) :=
  match d with
  | [] => [(k, v)]
  | (k', v') :: d' =>
      if String.eqb k k' then (k, v) :: d' else (k', v') :: dict_set k v d'
  end.

Definition keys (d : list (string * string)) : list string := map fst d.

(** [self.visited.add(url)]. *)
Definition visited_add (url : string) (w : World) : World :=
  log (Add url)
      {| index := index w; visited := {[url]} ∪ visited w; trace := trace w |}.

(** [self.index[url] = text]. *)
Definition index_set (url text : string) (w : World) : World :=
  {| index := dict_set url text (index w); visited := visited w;
     trace := trace w |}.

(** [print(f"Error crawling {url}: {e}")]. *)
Definition error_line (url : string) (e : Exception) : string :=
  "Error crawling " +:+ url +:+ ": " +:+ e.

(** [base_url or url]: [None] and the empty string are both falsy. *)
Definition scope_base (base_url : option string) (url : string) : string :=
  match base_url with
  | Some b => if Str.nonempty b then b else url
  | None => url
  end.

(** [if href:] on the value of [link.get('href')]. *)
Definition has_target (link : option string) : bool :=
  match link with
  | Some href => Str.nonempty href
  | None => false
  end.

(** A soup without the anchors whose [href] is absent or empty. *)
Definition without_empty_anchors (soup : Soup) : Soup :=
  {| get_text := get_text soup;
     find_all_a := List.filter has_target (find_all_a soup) |}.

(** How an iteration over the links of a page ends: normally, or with an
    exception that leaves the loop. *)
Inductive outcome :=
| Normal (w : World)
| Raised (e : Exception) (w : World).

(** ** [WebCrawler.crawl] *)

Section Crawl.

(** [requests.get(url)] followed by [.text]: the body or the exception. *)
Variable requests_get : string -> Exception + string.
(** [BeautifulSoup(text, 'html.parser')] with what is read of the soup. *)
Variable BeautifulSoup : string -> Exception + Soup.
(** [urlparse(href)] and [urljoin(url, href)] of [urllib.parse]. *)
Variable urlparse : string -> Exception + urllib.ParseResult.
Variable urljoin : string -> string -> Exception + string.

(** Lines 29 to 32: the absolute URL of a link of the page [url]. *)
Definition full_url (url href : string) : Exception + string :=
  match urlparse href with
  | inl e => inl e
  | inr parsed =>
      if negb (Str.nonempty (urllib.netloc parsed)) then urljoin url href
      else inr href
  end.

(** Lines 25 to 37: the loop over the anchors, [self_crawl] being the
    recursive call [self.crawl].  An exception raised by the resolution of
    a link leaves the loop; the recursive call itself raises nothing, as it
    catches every exception. *)
Fixpoint follow_links
    (self_crawl : string -> option string -> World -> option World)
    (url : string) (base_url : option string)
    (links : list (option string)) (w : World) : option outcome :=
  match links with
  | [] => Some (Normal w)
  | None :: links' => follow_links self_crawl url base_url links' w
  | Some href :: links' =>
      if Str.nonempty href then
        match full_url url href with
        | inl e => Some (Raised e w)
        | inr full =>
            let base := scope_base base_url url in
            if Str.startswith full base then
              match self_crawl full (Some base) w with
              | None => None
              | Some w' => follow_links self_crawl url base_url links' w'
              end
            else follow_links self_crawl url base_url links' w
        end
      else follow_links self_crawl url base_url links' w
  end.

(** The [except] clause of line 38. *)
Definition report (url : string) (e : Exception) (w : World) : World :=
  log (Print (error_line url e)) w.

(** [crawl(url, base_url)]; [None] when the fuel does not suffice. *)
Fixpoint crawl (fuel : nat) (url : string) (base_url : option string)
    (w : World) : option World :=
  match fuel with
  | O => None
  | S fuel' =>
      let w := log (Call url base_url) w in
      if decide (url ∈ visited w) then Some w
      else
        let w := visited_add url w in
        let w := log (Get url) w in
        match requests_get url with
        | inl e => Some (report url e w)
        | inr text =>
            match BeautifulSoup text with
            | inl e => Some (report url e w)
            | inr soup =>
                let w := index_set url (get_text soup) w in
                match follow_links (crawl fuel') url base_url
                        (find_all_a soup) w with
                | None => None
                | Some (Raised e w') => Some (report url e w')
                | Some (Normal w') => Some w'
                end
            end
        end
  end.

End Crawl.

Arguments crawl : simpl never.

(** ** [WebCrawler.search] and [WebCrawler.print_results] *)

Section Search.

(** What [str.lower] does to characters that are not ASCII: the case
    mappings of the Unicode database, which are data of the interpreter
    and not of the program.  [unicode_lower before stretch after] is the
    lowering of a stretch of such characters that stands between
    [before] and [after]; the lowering of a capital sigma depends on the
    characters around it. *)
Variable unicode_lower : string -> string -> string -> string.

(** The lowering of the characters outside ASCII read so far. *)
Definition lower_stretch (before stretch after : string) : string :=
  if Str.nonempty stretch then unicode_lower before stretch after else "".

(** [s.lower()], character by character as CPython computes it: an ASCII
    character, which is a byte below 128 of the UTF-8 form and stands
    for itself there, becomes its small letter; the characters between
    two of them, whose bytes are all above 127, are lowered through the
    Unicode database.  [before] is what has been read of the string,
    [stretch] the characters outside ASCII at its end that are still to
    be lowered. *)
Fixpoint lower_from (before stretch s : string) : string :=
  match s with
  | EmptyString => lower_stretch before stretch ""
  | String c s' =>
      if Str.is_ascii c
      then lower_stretch before stretch s
           +:+ String (Str.lower_char c)
                 (lower_from (before +:+ stretch +:+ String c "") "" s')
      else lower_from before (stretch +:+ String c "") s'
  end.

Definition lower (s : string) : string := lower_from "" "" s.

(** The loop of [search] over [self.index.items()]. *)
Fixpoint search_loop (keyword : string) (items : list (string * string))
    (results : list string) : list string :=
  match items with
  | [] => results
  | (url, text) :: items' =>
      if Str.contains (lower text) (lower keyword)
      then search_loop keyword items' (results ++ [url])
      else search_loop keyword items' results
  end.

(** [search(keyword)]: the result and the world it leaves. *)
Definition search (keyword : string) (w : World) : list string * World :=
  (search_loop keyword (index w) [], w).

End Search.

(** [print_results(results)]. *)
Definition print_results (results : list string) (w : World) : World :=
  match results with
  | [] => log (Print "No results found.") w
  | _ :: _ =>
      fold_left (fun w result => log (Print ("- " +:+ result)) w)
                results (log (Print "Search results:") w)
  end.

(** ** Reading a trace *)

(** The URLs fetched and the URLs added to [visited], each in order of
    occurrence. *)
Definition gets (t : list event) : list string :=
  flat_map (fun ev => match ev with Get u => [u] | _ => [] end) t.

Definition adds (t : list event) : list string :=
  flat_map (fun ev => match ev with Add u => [u] | _ => [] end) t.

(** A trace in which every insertion into [visited] comes directly after
    the entry of [crawl] for the same URL and directly before the fetch of
    that URL, and in which nothing else is inserted or fetched. *)
Inductive paired : list event -> Prop :=
| paired_nil : paired []
| paired_call u b t : paired t -> paired (Call u b :: t)
| paired_print l t : paired t -> paired (Print l :: t)
| paired_fetch u b t : paired t -> paired (Call u b :: Add u :: Get u :: t).

(** [on_calls K t]: every call of [crawl] recorded in [t] satisfies [K]. *)
Definition on_calls (K : string -> option string -> Prop) (t : list event)
  : Prop :=
  forall u b, In (Call u b) t -> K u b.

(** ** The runs of [crawl] as a relation

    [crawls url base_url w w'] holds when [crawl(url, base_url)] started
    in [w] returns in [w']; [follows url base_url links w o] is the same
    for the loop over [links].  One rule per path through the code. *)

Section Runs.

Variable requests_get : string -> Exception + string.
Variable BeautifulSoup : string -> Exception + Soup.
Variable urlparse : string -> Exception + urllib.ParseResult.
Variable urljoin : string -> string -> Exception + string.

(** The world in which [requests.get(url)] has just been called. *)
Definition fetching (url : string) (base_url : option string) (w : World)
  : World :=
  log (Get url) (visited_add url (log (Call url base_url) w)).

Inductive crawls : string -> option string -> World -> World -> Prop :=
| crawls_seen url bu w :
    url ∈ visited w ->
    crawls url bu w (log (Call url bu) w)
| crawls_get_raises url bu w e :
    url ∉ visited w ->
    requests_get url = inl e ->
    crawls url bu w (report url e (fetching url bu w))
| crawls_soup_raises url bu w text e :
    url ∉ visited w ->
    requests_get url = inr text ->
    BeautifulSoup text = inl e ->
    crawls url bu w (report url e (fetching url bu w))
| crawls_link_raises url bu w text soup e w' :
    url ∉ visited w ->
    requests_get url = inr text ->
    BeautifulSoup text = inr soup ->
    follows url bu (find_all_a soup)
            (index_set url (get_text soup) (fetching url bu w))
            (Raised e w') ->
    crawls url bu w (report url e w')
| crawls_done url bu w text soup w' :
    url ∉ visited w ->
    requests_get url = inr text ->
    BeautifulSoup text = inr soup ->
    follows url bu (find_all_a soup)
            (index_set url (get_text soup) (fetching url bu w))
            (Normal w') ->
    crawls url bu w w'
with follows :
  string -> option string -> list (option string) -> World -> outcome -> Prop :=
| follows_nil url bu w :
    follows url bu [] w (Normal w)
| follows_no_href url bu links w o :
    follows url bu links w o ->
    follows url bu (None :: links) w o
| follows_empty_href url bu links w o :
    follows url bu links w o ->
    follows url bu (Some "" :: links) w o
| follows_raises url bu href links w e :
    Str.nonempty href = true ->
    full_url urlparse urljoin url href = inl e ->
    follows url bu (Some href :: links) w (Raised e w)
| follows_out_of_scope url bu href links w full o :
    Str.nonempty href = true ->
    full_url urlparse urljoin url href = inr full ->
    Str.startswith full (scope_base bu url) = false ->
    follows url bu links w o ->
    follows url bu (Some href :: links) w o
| follows_in_scope url bu href links w full w1 o :
    Str.nonempty href = true ->
    full_url urlparse urljoin url href = inr full ->
    Str.startswith full (scope_base bu url) = true ->
    crawls full (Some (scope_base bu url)) w w1 ->
    follows url bu links w1 o ->
    follows url bu (Some href :: links) w o.

(** The calls that a traversal started by [crawl(seed, base_url)] can give
    rise to: the call itself, and for a call whose page is fetched and
    parsed, a call for each of its links that resolves inside the scope. *)
Inductive reach (seed : string) (base_url : option string)
  : string -> option string -> Prop :=
| reach_seed : reach seed base_url seed base_url
| reach_link url bu text soup href full :
    reach seed base_url url bu ->
    requests_get url = inr text ->
    BeautifulSoup text = inr soup ->
    In (Some href) (find_all_a soup) ->
    Str.nonempty href = true ->
    full_url urlparse urljoin url href = inr full ->
    Str.startswith full (scope_base bu url) = true ->
    reach seed base_url full (Some (scope_base bu url)).

End Runs.

Scheme crawls_mut := Minimality for crawls Sort Prop
  with follows_mut := Minimality for follows Sort Prop.
Combined Scheme crawls_follows_ind from crawls_mut, follows_mut.

(** ** Properties of states and runs *)

(** Every key of the index is a visited URL. *)
Definition index_in_visited (w : World) : Prop :=
  forall k, In k (keys (index w)) -> k ∈ visited w.

(** The world an outcome leaves. *)
Definition world_of (o : outcome) : World :=
  match o with
  | Normal w => w
  | Raised _ w => w
  end.

(** [extends w w' t]: [w'] is [w] after the events [t], which fetch only
    URLs that were not visited in [w], each once, right after marking
    them; the index only gains keys, all of them fetched in [t]. *)
Record extends (w w' : World) (t : list event) : Prop := {
  ext_trace : trace w' = trace w ++ t;
  ext_paired : paired t;
  ext_nodup : NoDup (adds t);
  ext_fresh : forall u, In u (adds t) -> u ∉ visited w;
  ext_visited : forall u, u ∈ visited w' <-> u ∈ visited w \/ In u (adds t);
  ext_keys_old : forall k, In k (keys (index w)) -> In k (keys (index w'));
  ext_keys_new :
    forall k, In k (keys (index w')) -> In k (keys (index w)) \/ In k (adds t)
}.

(** Two characters that are the same letter: equal, or one of [A]..[Z]
    and the other the small letter 32 codes above it. *)
Definition same_letter (c d : ascii) : bool :=
  Ascii.eqb c d
  || (Str.is_upper c && (nat_of_ascii d =? nat_of_ascii c + 32)%nat)
  || (Str.is_upper d && (nat_of_ascii c =? nat_of_ascii d + 32)%nat).

(** Two strings that are equal up to the case of their letters. *)
Fixpoint ci_eq (s t : string) : bool :=
  match s, t with
  | EmptyString, EmptyString => true
  | String c s', String d t' => same_letter c d && ci_eq s' t'
  | _, _ => false
  end.

(** "Contains [keyword] as a case-insensitive substring", after the words
    of the specification: some stretch of the text equals the keyword up
    to the case of its letters.  The letters are those of ASCII; any
    other character is compared as it is. *)
Definition ci_substring (keyword text : string) : Prop :=
  exists pre mid post,
    text = pre +:+ mid +:+ post /\ ci_eq mid keyword = true.

(** An ASCII character other than the small letters [i] and [k]. *)
Definition plain_char (c : ascii) : bool :=
  Str.is_ascii c && negb (Ascii.eqb c "i") && negb (Ascii.eqb c "k").

(** A keyword of ASCII characters without the letters [I] and [K], in
    either case. *)
Definition plain (keyword : string) : bool :=
  Str.forallb plain_char (Str.ascii_lower keyword).

(** A character outside ASCII, or one of the small letters [i] and [k]. *)
Definition outside_or_ik (c : ascii) : bool :=
  negb (Str.is_ascii c) || Ascii.eqb c "i" || Ascii.eqb c "k".

(** What the case mappings of Unicode have in common with ASCII: the
    lowering of a stretch of characters outside ASCII is not empty, and
    the only ASCII characters in it are [i] (from U+0130, the capital I
    with a dot) and [k] (from U+212A, the Kelvin sign). *)
Definition ascii_images_ik
    (unicode_lower : string -> string -> string -> string) : Prop :=
  forall before stretch after,
    Str.nonempty stretch = true ->
    Str.forallb (fun c => negb (Str.is_ascii c)) stretch = true ->
    Str.nonempty (unicode_lower before stretch after) = true /\
    Str.forallb outside_or_ik (unicode_lower before stretch after) = true.

(** ** Reading URLs *)









(** ** Scenarios

    The capabilities of the test cases of [main.py], where [requests.get]
    is replaced by a mock.  No URL of a scenario has a bracket or a
    non-ASCII character, so the two checks that [urllib] delegates are
    never reached. *)

Definition py_urlparse (href : string) : Exception + urllib.ParseResult :=
  urllib.urlparse (fun _ => None) (fun _ => None) href "".

Definition py_urljoin : string -> string -> Exception + string :=
  urllib.urljoin (fun _ => None) (fun _ => None).

(** [test_crawl_with_cycle]: every URL serves the same page, which links
    to [/] and to [/about]. *)
Definition cyclic_get (url : string) : Exception + string :=
  inr "cyclic_html".

Definition cyclic_soup (text : string) : Exception + Soup :=
  inr {| get_text := "Welcome! Home About";
         find_all_a := [Some "/"; Some "/about"] |}.

(** [test_crawl_error_handling]: every request raises. *)
Definition failing_get (url : string) : Exception + string :=
  inl "Test Error".

(** A page with two links, the first of which cannot be fetched; an
    anchor without [href] and one with an empty [href] stand in between.
    A body is represented by the URL that served it. *)
Definition siblings_get (url : string) : Exception + string :=
  if String.eqb url "https://example.com/a" then inl "Connection timed out"
  else inr url.

Definition siblings_soup (text : string) : Exception + Soup :=
  if String.eqb text "https://example.com"
  then inr {| get_text := "Home";
              find_all_a := [Some "/a"; None; Some ""; Some "/b"] |}
  else inr {| get_text := "Leaf"; find_all_a := [] |}.

(** The same page with a link in between whose [href] is not a valid URL:
    [urlparse] raises [ValueError] on it. *)
Definition broken_soup (text : string) : Exception + Soup :=
  if String.eqb text "https://example.com"
  then inr {| get_text := "Home";
              find_all_a := [Some "/a"; Some "//["; Some "/b"] |}
  else inr {| get_text := "Leaf"; find_all_a := [] |}.

(** Only the first page can be fetched: both links of [siblings_soup]
    fail. *)
Definition lonely_get (url : string) : Exception + string :=
  if String.eqb url "https://example.com" then inr url
  else inl "Connection timed out".

(** The worlds in which the runs of the scenarios end. *)

Definition cyclic_final : World :=
  {| index := [("https://example.com", "Welcome! Home About");
               ("https://example.com/", "Welcome! Home About");
               ("https://example.com/about", "Welcome! Home About")];
     visited := {[ "https://example.com"; "https://example.com/";
                   "https://example.com/about" ]};
     trace := [Call "https://example.com" None; Add "https://example.com";
               Get "https://example.com";
               Call "https://example.com/" (Some "https://example.com");
               Add "https://example.com/"; Get "https://example.com/";
               Call "https://example.com/" (Some "https://example.com");
               Call "https://example.com/about" (Some "https://example.com");
               Add "https://example.com/about";
               Get "https://example.com/about";
               Call "https://example.com/" (Some "https://example.com");
               Call "https://example.com/about" (Some "https://example.com");
               Call "https://example.com/about" (Some "https://example.com")]
  |}.

Definition siblings_final : World :=
  {| index := [("https://example.com", "Home");
               ("https://example.com/b", "Leaf")];
     visited := {[ "https://example.com"; "https://example.com/a";
                   "https://example.com/b" ]};
     trace := [Call "https://example.com" None; Add "https://example.com";
               Get "https://example.com";
               Call "https://example.com/a" (Some "https://example.com");
               Add "https://example.com/a"; Get "https://example.com/a";
               Print
                 "Error crawling https://example.com/a: Connection timed out";
               Call "https://example.com/b" (Some "https://example.com");
               Add "https://example.com/b"; Get "https://example.com/b"]
  |}.

Definition broken_final : World :=
  {| index := [("https://example.com", "Home")];
     visited := {[ "https://example.com"; "https://example.com/a" ]};
     trace := [Call "https://example.com" None; Add "https://example.com";
               Get "https://example.com";
               Call "https://example.com/a" (Some "https://example.com");
               Add "https://example.com/a"; Get "https://example.com/a";
               Print
                 "Error crawling https://example.com/a: Connection timed out";
               Print "Error crawling https://example.com: Invalid IPv6 URL"]
  |}.

Definition lonely_final : World :=
  {| index := [("https://example.com", "Home")];
     visited := {[ "https://example.com"; "https://example.com/a";
                   "https://example.com/b" ]};
     trace := [Call "https://example.com" None; Add "https://example.com";
               Get "https://example.com";
               Call "https://example.com/a" (Some "https://example.com");
               Add "https://example.com/a"; Get "https://example.com/a";
               Print
                 "Error crawling https://example.com/a: Connection timed out";
               Call "https://example.com/b" (Some "https://example.com");
               Add "https://example.com/b"; Get "https://example.com/b";
               Print
                 "Error crawling https://example.com/b: Connection timed out"]
  |}.

(** A seed outside the explicit scope base. *)
Definition outside_final : World :=
  {| index := [("https://other.org", "Welcome! Home About")];
     visited := {[ "https://other.org" ]};
     trace := [Call "https://other.org" (Some "https://example.com");
               Add "https://other.org"; Get "https://other.org"]
  |}.

(** ** Scenarios of [search] *)

(** [str.lower] on the two stretches of the scenario that are not ASCII:
    a capital sigma that ends a word becomes a final sigma, a capital
    sigma alone a small sigma.  Any other stretch is left as it is. *)
Definition sigma_lower (before stretch after : string) : string :=
  if String.eqb stretch "ΑΣ" then "ας"
  else if String.eqb stretch "Σ" then "σ"
  else stretch.


(** The index of [test_search_case_insensitive]. *)
Definition test_pages : World :=
  {| index := [("page1", "This has the KEYWORD in content");
               ("page2", "Another KeyWord is here");
               ("page3", "No matching text")];
     visited := {[ "page1"; "page2"; "page3" ]};
     trace := [] |}.

(** ** [main] and further readings of a run *)

(** The lines printed, in order of occurrence. *)
Definition prints (t : list event) : list string :=
  flat_map (fun ev => match ev with Print l => [l] | _ => [] end) t.

Section Main.

Variable requests_get : string -> Exception + string.
Variable BeautifulSoup : string -> Exception + Soup.
Variable urlparse : string -> Exception + urllib.ParseResult.
Variable urljoin : string -> string -> Exception + string.
Variable unicode_lower : string -> string -> string -> string.

(** The URLs whose fetch and parse both succeed: the ones for which line
    23 of [crawl] is reached. *)
Definition indexable (url : string) : bool :=
  match requests_get url with
  | inl _ => false
  | inr text =>
      match BeautifulSoup text with
      | inl _ => false
      | inr _ => true
      end
  end.

(** [main()]: a new crawler crawls the start URL, then the keyword is
    searched and the results are printed. *)
Definition main (fuel : nat) : option World :=
  let crawler := init in
  let start_url := "https://example.com" in
  match crawl requests_get BeautifulSoup urlparse urljoin
              fuel start_url None crawler with
  | None => None
  | Some crawler =>
      let keyword := "test" in
      let '(results, crawler) := search unicode_lower keyword crawler in
      Some (print_results results crawler)
  end.

(** [links_resolve seed base_url]: on no page of a call that can arise
    from [crawl(seed, base_url)] does the resolution of a link raise. *)
Definition links_resolve (seed : string) (base_url : option string) : Prop :=
  forall url bu text soup href,
    reach requests_get BeautifulSoup urlparse urljoin seed base_url url bu ->
    requests_get url = inr text ->
    BeautifulSoup text = inr soup ->
    In (Some href) (find_all_a soup) ->
    Str.nonempty href = true ->
    exists full, full_url urlparse urljoin url href = inr full.

End Main.

(** What [print_results] prints for a list of results. *)
Definition presentation (results : list string) : list event :=
  match results with
  | [] => [Print "No results found."]
  | _ :: _ =>
      Print "Search results:"
      :: map (fun result => Print ("- " +:+ result)) results
  end.

(** Further scenarios: a parser that raises, and pages that contain the
    keyword of [main]. *)

Definition failing_soup (text : string) : Exception + Soup :=
  inl "not html".

Definition test_soup (text : string) : Exception + Soup :=
  inr {| get_text := "A Test page"; find_all_a := [Some "/about"] |}.

Definition main_final : World :=
  {| index := [("https://example.com", "A Test page");
               ("https://example.com/about", "A Test page")];
     visited := {[ "https://example.com"; "https://example.com/about" ]};
     trace := [Call "https://example.com" None; Add "https://example.com";
               Get "https://example.com";
               Call "https://example.com/about" (Some "https://example.com");
               Add "https://example.com/about";
               Get "https://example.com/about";
               Call "https://example.com/about" (Some "https://example.com");
               Print "Search results:"; Print "- https://example.com";
               Print "- https://example.com/about"]
  |}.

(** * Proofs *)

(** ** Strings *)

Lemma startswith_spec (s p : string) :
  Str.startswith s p = true <-> exists post, s = p +:+ post.
Proof.
  revert s. induction p as [|c p IH]; intros s; simpl.
  - split; [intros _; now exists s | intros _; reflexivity].
  - destruct s as [|d s].
    + split; [discriminate | intros [post H]; discriminate].
    + destruct (Ascii.eqb_spec c d) as [->|Hne].
      * rewrite IH. split; intros [post H]; exists post.
        -- now rewrite H.
        -- now injection H.
      * split; [discriminate | intros [post H]; injection H; congruence].
Qed.

Lemma contains_spec (s sub : string) :
  Str.contains s sub = true <-> exists pre post, s = pre +:+ sub +:+ post.
Proof.
  induction s as [|c s IH]; simpl.
  - rewrite orb_false_r, startswith_spec. split.
    + intros [post H]. now exists "", post.
    + intros [[|a pre] [post H]]; [now exists post | discriminate].
  - rewrite orb_true_iff, startswith_spec, IH. split.
    + intros [[post H] | (pre & post & H)].
      * now exists "", post.
      * exists (String c pre), post. simpl. now rewrite H.
    + intros ([|a pre] & post & H); simpl in H.
      * left. now exists post.
      * right. exists pre, post. now injection H.
Qed.

Lemma ascii_lower_app (a b : string) :
  Str.ascii_lower (a +:+ b) = Str.ascii_lower a +:+ Str.ascii_lower b.
Proof. induction a as [|c a IH]; simpl; [reflexivity | now rewrite IH]. Qed.

Lemma ascii_lower_app_inv (s a b : string) :
  Str.ascii_lower s = a +:+ b ->
  exists s1 s2,
    s = s1 +:+ s2 /\ Str.ascii_lower s1 = a /\ Str.ascii_lower s2 = b.
Proof.
  revert s. induction a as [|c a IH]; intros s H; simpl in H.
  - now exists "", s.
  - destruct s as [|d s]; [discriminate|]. simpl in H.
    injection H as Hc Hs. destruct (IH _ Hs) as (s1 & s2 & -> & H1 & H2).
    exists (String d s1), s2. simpl. now rewrite Hc, H1.
Qed.

Lemma is_upper_spec (c : ascii) :
  Str.is_upper c = true <-> 65 <= nat_of_ascii c <= 90.
Proof.
  unfold Str.is_upper, Str.between.
  rewrite andb_true_iff, !Nat.leb_le. tauto.
Qed.

Lemma nat_of_lower_char (c : ascii) :
  nat_of_ascii (Str.lower_char c)
  = if Str.is_upper c then nat_of_ascii c + 32 else nat_of_ascii c.
Proof.
  unfold Str.lower_char. destruct (Str.is_upper c) eqn:E; [|reflexivity].
  apply nat_ascii_embedding. apply is_upper_spec in E. lia.
Qed.

Lemma nat_of_ascii_inj (a b : ascii) :
  nat_of_ascii a = nat_of_ascii b -> a = b.
Proof.
  intros H. rewrite <- (ascii_nat_embedding a), <- (ascii_nat_embedding b).
  now rewrite H.
Qed.

(** Being the same letter is having the same small letter. *)
Lemma same_letter_spec (c d : ascii) :
  same_letter c d = true <-> Str.lower_char c = Str.lower_char d.
Proof.
  assert (Hl : Str.lower_char c = Str.lower_char d <->
               nat_of_ascii (Str.lower_char c)
               = nat_of_ascii (Str.lower_char d)).
  { split; [now intros ->|apply nat_of_ascii_inj]. }
  rewrite Hl, !nat_of_lower_char. unfold same_letter.
  rewrite !orb_true_iff, !andb_true_iff, !Nat.eqb_eq.
  assert (He : Ascii.eqb c d = true <-> nat_of_ascii c = nat_of_ascii d).
  { rewrite Ascii.eqb_eq. split; [now intros ->|apply nat_of_ascii_inj]. }
  rewrite He.
  destruct (Str.is_upper c) eqn:Ec, (Str.is_upper d) eqn:Ed;
    try (apply is_upper_spec in Ec); try (apply is_upper_spec in Ed);
    try (assert (~ 65 <= nat_of_ascii c <= 90)
          by (rewrite <- is_upper_spec, Ec; discriminate));
    try (assert (~ 65 <= nat_of_ascii d <= 90)
          by (rewrite <- is_upper_spec, Ed; discriminate));
    intuition (try discriminate; lia).
Qed.

Lemma ci_eq_spec (s t : string) :
  ci_eq s t = true <-> Str.ascii_lower s = Str.ascii_lower t.
Proof.
  revert t. induction s as [|c s IH]; intros [|d t]; simpl;
    try (split; [discriminate|discriminate]); [tauto|].
  rewrite andb_true_iff, same_letter_spec, IH. split.
  - intros [-> ->]. reflexivity.
  - intros [= ? ?]. tauto.
Qed.

(** The test of [search] on ASCII strings decides [ci_substring]. *)
Lemma contains_lower_spec (keyword text : string) :
  Str.contains (Str.ascii_lower text) (Str.ascii_lower keyword) = true
  <-> ci_substring keyword text.
Proof.
  rewrite contains_spec. split.
  - intros (p & q & H).
    destruct (ascii_lower_app_inv _ _ _ H) as (pre & rest & -> & _ & Hrest).
    destruct (ascii_lower_app_inv _ _ _ Hrest) as (mid & post & -> & Hmid & _).
    exists pre, mid, post. split; [reflexivity|]. now apply ci_eq_spec.
  - intros (pre & mid & post & -> & Hmid%ci_eq_spec).
    exists (Str.ascii_lower pre), (Str.ascii_lower post).
    now rewrite !ascii_lower_app, Hmid.
Qed.

Lemma str_app_assoc (a b c : string) : (a +:+ b) +:+ c = a +:+ b +:+ c.
Proof.
  induction a as [|x a IH]; [reflexivity|].
  change (String x ((a +:+ b) +:+ c) = String x (a +:+ b +:+ c)).
  now rewrite IH.
Qed.

Lemma str_app_empty (a : string) : a +:+ "" = a.
Proof.
  induction a as [|x a IH]; [reflexivity|].
  change (String x (a +:+ "") = String x a). now rewrite IH.
Qed.

Lemma str_forallb_app (p : ascii -> bool) (a b : string) :
  Str.forallb p (a +:+ b) = Str.forallb p a && Str.forallb p b.
Proof.
  induction a as [|x a IH]; [reflexivity|].
  change (p x && Str.forallb p (a +:+ b)
          = p x && Str.forallb p a && Str.forallb p b).
  now rewrite IH, andb_assoc.
Qed.

(** ** [str.lower] *)

Lemma is_ascii_lower_char (c : ascii) :
  Str.is_ascii (Str.lower_char c) = Str.is_ascii c.
Proof.
  unfold Str.is_ascii. rewrite nat_of_lower_char.
  destruct (Str.is_upper c) eqn:E; [|reflexivity].
  apply is_upper_spec in E.
  destruct (Nat.ltb_spec (nat_of_ascii c + 32) 128),
           (Nat.ltb_spec (nat_of_ascii c) 128); try reflexivity; lia.
Qed.

(** ASCII characters are lowered where they stand. *)
Lemma lower_from_ascii unicode_lower (mid before rest : string) :
  Str.isascii mid = true ->
  lower_from unicode_lower before "" (mid +:+ rest)
  = Str.ascii_lower mid
    +:+ lower_from unicode_lower (before +:+ mid) "" rest.
Proof.
  revert before. induction mid as [|c mid IH]; intros before Hm.
  - now rewrite str_app_empty.
  - apply andb_true_iff in Hm as [Hc Hm].
    change (lower_from unicode_lower before "" (String c (mid +:+ rest))
            = String (Str.lower_char c)
                (Str.ascii_lower mid
                 +:+ lower_from unicode_lower (before +:+ String c mid) ""
                       rest)).
    simpl. rewrite Hc.
    change (String (Str.lower_char c)
              (lower_from unicode_lower (before +:+ String c "") ""
                 (mid +:+ rest)) = String (Str.lower_char c)
                (Str.ascii_lower mid
                 +:+ lower_from unicode_lower (before +:+ String c mid) ""
                       rest)).
    rewrite (IH _ Hm), str_app_assoc. reflexivity.
Qed.

Lemma lower_ascii unicode_lower (s : string) :
  Str.isascii s = true -> lower unicode_lower s = Str.ascii_lower s.
Proof.
  intros H. unfold lower.
  rewrite <- (str_app_empty s) at 1. rewrite (lower_from_ascii _ _ _ _ H).
  apply str_app_empty.
Qed.




(** A stretch outside ASCII that is being read is lowered to a string
    that is not empty and has no plain character. *)
Lemma lower_from_stretch unicode_lower (s before stretch : string) :
  ascii_images_ik unicode_lower ->
  Str.nonempty stretch = true ->
  Str.forallb (fun c => negb (Str.is_ascii c)) stretch = true ->
  exists g rest,
    lower_from unicode_lower before stretch s = g +:+ rest /\
    Str.nonempty g = true /\ Str.forallb outside_or_ik g = true.
Proof.
  intros H. revert before stretch.
  induction s as [|c s IH]; intros before stretch Hne Hs; simpl.
  - unfold lower_stretch. rewrite Hne.
    destruct (H before stretch "" Hne Hs) as [Hg1 Hg2].
    exists (unicode_lower before stretch ""), "".
    now rewrite str_app_empty.
  - destruct (Str.is_ascii c) eqn:Hc.
    + unfold lower_stretch. rewrite Hne.
      destruct (H before stretch (String c s) Hne Hs) as [Hg1 Hg2]. eauto.
    + apply IH.
      * now destruct stretch.
      * rewrite str_forallb_app, Hs. simpl. now rewrite Hc.
Qed.

Lemma plain_not_outside (c : ascii) :
  plain_char c = true -> outside_or_ik c = true -> False.
Proof.
  unfold plain_char, outside_or_ik.
  destruct (Str.is_ascii c), (Ascii.eqb c "i"), (Ascii.eqb c "k");
    discriminate.
Qed.

(** Where a string of plain characters starts the lowered text, it
    lowers the ASCII characters that start the text. *)
Lemma startswith_lower_from unicode_lower (k s before : string) :
  ascii_images_ik unicode_lower ->
  Str.forallb plain_char k = true ->
  Str.startswith (lower_from unicode_lower before "" s) k = true ->
  exists mid rest, s = mid +:+ rest /\ Str.ascii_lower mid = k.
Proof.
  intros H. revert s before.
  induction k as [|p k IH]; intros s before Hk Hs.
  - now exists "", s.
  - simpl in Hk. apply andb_true_iff in Hk as [Hp Hk].
    destruct s as [|c s]; [discriminate|]. simpl in Hs.
    destruct (Str.is_ascii c) eqn:Hc.
    + change (lower_stretch unicode_lower before "" (String c s)) with ""
        in Hs.
      change ("" +:+ ?x) with x in Hs. simpl in Hs.
      destruct (Ascii.eqb_spec p (Str.lower_char c)) as [->|]; [|discriminate].
      destruct (IH _ _ Hk Hs) as (mid & rest & -> & <-).
      now exists (String c mid), rest.
    + destruct (lower_from_stretch unicode_lower s before
                  ("" +:+ String c "") H) as (g & rest & Hg & Hne & Hout).
      { reflexivity. }
      { simpl. now rewrite Hc. }
      rewrite Hg in Hs. destruct g as [|x g]; [discriminate|].
      simpl in Hs, Hout. apply andb_true_iff in Hout as [Hx _].
      destruct (Ascii.eqb_spec p x) as [->|]; [|discriminate].
      destruct (plain_not_outside _ Hp Hx).
Qed.

(** A string of plain characters does not start inside the lowering of
    a stretch outside ASCII. *)
Lemma contains_after_stretch (g rest k : string) :
  Str.forallb outside_or_ik g = true ->
  Str.forallb plain_char k = true ->
  Str.nonempty k = true ->
  Str.contains (g +:+ rest) k = true -> Str.contains rest k = true.
Proof.
  intros Hg Hk Hne. induction g as [|x g IH]; [trivial|].
  simpl in Hg. apply andb_true_iff in Hg as [Hx Hg].
  change (String x g +:+ rest) with (String x (g +:+ rest)).
  destruct k as [|p k]; [discriminate|].
  simpl in Hk. apply andb_true_iff in Hk as [Hp Hk'].
  cbn [Str.contains Str.startswith].
  destruct (Ascii.eqb_spec p x) as [->|_].
  - destruct (plain_not_outside _ Hp Hx).
  - simpl. intros Hc. apply IH; [assumption|]. exact Hc.
Qed.

(** A string of plain characters inside the lowered text lowers a
    stretch of the text. *)
Lemma contains_lower_from unicode_lower (k s before stretch : string) :
  ascii_images_ik unicode_lower ->
  Str.forallb plain_char k = true ->
  Str.nonempty k = true ->
  Str.forallb (fun c => negb (Str.is_ascii c)) stretch = true ->
  Str.contains (lower_from unicode_lower before stretch s) k = true ->
  exists pre mid post,
    s = pre +:+ mid +:+ post /\ Str.ascii_lower mid = k.
Proof.
  intros H Hk Hne. revert before stretch.
  assert (Hflush : forall before stretch after,
             Str.forallb (fun c => negb (Str.is_ascii c)) stretch = true ->
             Str.forallb outside_or_ik
               (lower_stretch unicode_lower before stretch after) = true).
  { intros before stretch after Hs. unfold lower_stretch.
    destruct (Str.nonempty stretch) eqn:E; [|reflexivity].
    now apply H. }
  induction s as [|c s IH]; intros before stretch Hs Hc.
  - simpl in Hc.
    pose proof (Hflush before stretch "" Hs) as Hg.
    rewrite <- (str_app_empty (lower_stretch _ _ _ _)) in Hc.
    apply (contains_after_stretch _ _ _ Hg Hk Hne) in Hc.
    destruct k; discriminate.
  - simpl in Hc. destruct (Str.is_ascii c) eqn:Ec.
    + pose proof (Hflush before stretch (String c s) Hs) as Hg.
      apply (contains_after_stretch _ _ _ Hg Hk Hne) in Hc.
      cbn [Str.contains] in Hc. apply orb_true_iff in Hc as [Hc|Hc].
      * destruct k as [|p k]; [discriminate|].
        simpl in Hk. apply andb_true_iff in Hk as [Hp Hk].
        simpl in Hc.
        destruct (Ascii.eqb_spec p (Str.lower_char c)) as [->|];
          [|discriminate].
        destruct (startswith_lower_from _ _ _ _ H Hk Hc)
          as (mid & rest & -> & <-).
        now exists "", (String c mid), rest.
      * destruct (IH _ "" eq_refl Hc) as (pre & mid & post & -> & <-).
        now exists (String c pre), mid, post.
    + destruct (IH before (stretch +:+ String c "")) as
        (pre & mid & post & -> & <-); [|exact Hc|].
      * rewrite str_forallb_app, Hs. simpl. now rewrite Ec.
      * now exists (String c pre), mid, post.
Qed.

(** For a plain keyword, the test of [search] finds occurrences up to
    case only, whatever the text. *)
Lemma contains_lower_ci_substring unicode_lower (keyword text : string) :
  ascii_images_ik unicode_lower ->
  plain keyword = true ->
  Str.contains (lower unicode_lower text) (Str.ascii_lower keyword) = true ->
  ci_substring keyword text.
Proof.
  intros H Hk Hc. destruct keyword as [|c keyword].
  - now exists "", "", text.
  - destruct (contains_lower_from unicode_lower _ text "" "" H Hk
                eq_refl eq_refl Hc) as (pre & mid & post & -> & Hmid).
    exists pre, mid, post. split; [reflexivity|]. now apply ci_eq_spec.
Qed.

Lemma plain_isascii (keyword : string) :
  plain keyword = true -> Str.isascii keyword = true.
Proof.
  unfold plain, Str.isascii.
  induction keyword as [|c k IH]; [reflexivity|]. simpl.
  intros [Hc Hk]%andb_true_iff. rewrite (IH Hk), andb_true_r.
  unfold plain_char in Hc. rewrite is_ascii_lower_char in Hc.
  now destruct (Str.is_ascii c).
Qed.

(** ** Dicts *)

Lemma keys_dict_set (k v : string) (d : list (string * string)) :
  keys (dict_set k v d)
  = if existsb (String.eqb k) (keys d) then keys d else keys d ++ [k].
Proof.
  induction d as [|[k' v'] d IH]; simpl; [reflexivity|].
  destruct (String.eqb_spec k k') as [->|Hne]; simpl; [reflexivity|].
  rewrite IH. unfold keys. now destruct (existsb _ _).
Qed.

Lemma in_keys_dict_set (k v k0 : string) (d : list (string * string)) :
  In k0 (keys (dict_set k v d)) <-> k0 = k \/ In k0 (keys d).
Proof.
  rewrite keys_dict_set.
  destruct (existsb (String.eqb k) (keys d)) eqn:E.
  - apply existsb_exists in E as (x & Hx & Hk).
    apply String.eqb_eq in Hk as <-. intuition congruence.
  - rewrite in_app_iff. simpl. intuition.
Qed.

(** ** Traces *)

Lemma adds_app (t1 t2 : list event) : adds (t1 ++ t2) = adds t1 ++ adds t2.
Proof. apply flat_map_app. Qed.

Lemma in_gets (u : string) (t : list event) : In u (gets t) <-> In (Get u) t.
Proof.
  unfold gets. rewrite in_flat_map. split.
  - intros ([] & Hin & Hu); simpl in Hu; try tauto.
    destruct Hu as [->|[]]. assumption.
  - intros H. exists (Get u). simpl. auto.
Qed.

Lemma in_adds (u : string) (t : list event) : In u (adds t) <-> In (Add u) t.
Proof.
  unfold adds. rewrite in_flat_map. split.
  - intros ([] & Hin & Hu); simpl in Hu; try tauto.
    destruct Hu as [->|[]]. assumption.
  - intros H. exists (Add u). simpl. auto.
Qed.

Lemma paired_app (t1 t2 : list event) :
  paired t1 -> paired t2 -> paired (t1 ++ t2).
Proof.
  induction 1; intros H2; simpl.
  - assumption.
  - apply paired_call; auto.
  - apply paired_print; auto.
  - apply paired_fetch; auto.
Qed.

Lemma paired_gets_adds (t : list event) : paired t -> gets t = adds t.
Proof. induction 1; simpl; congruence. Qed.

(** In a paired trace a fetch is directly preceded by the entry of
    [crawl] for its URL and by the insertion of that URL. *)
Lemma paired_before_get (t : list event) :
  paired t ->
  forall t1 u t2, t = t1 ++ Get u :: t2 ->
  exists t0 b, t1 = t0 ++ [Call u b; Add u].
Proof.
  induction 1 as [|v b t Hp IH|l t Hp IH|v b t Hp IH]; intros t1 u t2 E.
  - destruct t1; discriminate.
  - destruct t1 as [|ev t1]; [discriminate|]. injection E as E1 E. subst ev.
    destruct (IH _ _ _ E) as (t0 & b' & ->). now exists (Call v b :: t0), b'.
  - destruct t1 as [|ev t1]; [discriminate|]. injection E as E1 E. subst ev.
    destruct (IH _ _ _ E) as (t0 & b' & ->). now exists (Print l :: t0), b'.
  - destruct t1 as [|e1 [|e2 [|e3 t1]]]; try discriminate.
    + injection E as E1 E2 E3 E. subst. now exists [], b.
    + injection E as E1 E2 E3 E. subst e1 e2 e3.
      destruct (IH _ _ _ E) as (t0 & b' & ->).
      now exists (Call v b :: Add v :: Get v :: t0), b'.
Qed.

Lemma paired_get_called (t : list event) (u : string) :
  paired t -> In (Get u) t -> exists b, In (Call u b) t.
Proof.
  intros Hp (t1 & t2 & E)%in_split.
  destruct (paired_before_get _ Hp _ _ _ E) as (t0 & b & ->).
  exists b. subst t. rewrite !in_app_iff. simpl. auto.
Qed.

(** ** Runs extend the world *)

Lemma extends_refl (w : World) : extends w w [].
Proof.
  split; simpl; try tauto.
  - now rewrite app_nil_r.
  - constructor.
  - constructor.
Qed.

Lemma extends_trans (w w1 w2 : World) (t1 t2 : list event) :
  extends w w1 t1 -> extends w1 w2 t2 -> extends w w2 (t1 ++ t2).
Proof.
  intros [T1 P1 N1 F1 V1 O1 K1] [T2 P2 N2 F2 V2 O2 K2]. split.
  - now rewrite T2, T1, app_assoc.
  - now apply paired_app.
  - rewrite adds_app. apply NoDup_app. split_and!; [assumption| |assumption].
    intros u Hu1%list_elem_of_In Hu2%list_elem_of_In.
    apply (F2 u Hu2), V1. now right.
  - intros u. rewrite adds_app, in_app_iff. intros [H|H]; [now apply F1|].
    intros Hv. apply (F2 u H), V1. now left.
  - intros u. rewrite V2, V1, adds_app, in_app_iff. tauto.
  - auto.
  - intros k Hk. rewrite adds_app, in_app_iff.
    destruct (K2 k Hk) as [H|H]; [|tauto]. destruct (K1 k H); tauto.
Qed.

Lemma extends_call (u : string) (b : option string) (w : World) :
  extends w (log (Call u b) w) [Call u b].
Proof.
  split; simpl; try tauto.
  - repeat constructor.
  - constructor.
Qed.

Lemma extends_report (u : string) (e : Exception) (w : World) :
  extends w (report u e w) [Print (error_line u e)].
Proof.
  split; simpl; try tauto.
  - repeat constructor.
  - constructor.
Qed.

Lemma extends_fetching (u : string) (b : option string) (w : World) :
  u ∉ visited w -> extends w (fetching u b w) [Call u b; Add u; Get u].
Proof.
  intros Hu. split; simpl.
  - now rewrite <- !app_assoc.
  - apply paired_fetch, paired_nil.
  - apply NoDup_singleton.
  - now intros v [<-|[]].
  - intros v. rewrite elem_of_union, elem_of_singleton. intuition auto.
  - tauto.
  - tauto.
Qed.

Lemma extends_stored (u text : string) (b : option string) (w : World) :
  u ∉ visited w ->
  extends w (index_set u text (fetching u b w)) [Call u b; Add u; Get u].
Proof.
  intros Hu. destruct (extends_fetching u b w Hu) as [T P N F V O K].
  split; try assumption.
  - intros k Hk. simpl. apply in_keys_dict_set. now right.
  - intros k [->|Hk]%in_keys_dict_set; simpl; tauto.
Qed.

(** ** The traversal *)

Section CrawlProofs.

Context (requests_get : string -> Exception + string)
        (BeautifulSoup : string -> Exception + Soup)
        (urlparse : string -> Exception + urllib.ParseResult)
        (urljoin : string -> string -> Exception + string).

Local Abbreviation crawl := (crawl requests_get BeautifulSoup urlparse urljoin).
Local Abbreviation follow_links := (follow_links urlparse urljoin).
Local Abbreviation full_url := (full_url urlparse urljoin).
Local Abbreviation crawls := (crawls requests_get BeautifulSoup urlparse urljoin).
Local Abbreviation follows :=
  (follows requests_get BeautifulSoup urlparse urljoin).
Local Abbreviation reach := (reach requests_get BeautifulSoup urlparse urljoin).

(** The equation of [crawl] for a positive fuel. *)
Lemma crawl_S fuel url bu w :
  crawl (S fuel) url bu w =
  if decide (url ∈ visited w) then Some (log (Call url bu) w)
  else
    match requests_get url with
    | inl e => Some (report url e (fetching url bu w))
    | inr text =>
        match BeautifulSoup text with
        | inl e => Some (report url e (fetching url bu w))
        | inr soup =>
            match follow_links (crawl fuel) url bu (find_all_a soup)
                    (index_set url (get_text soup) (fetching url bu w)) with
            | None => None
            | Some (Raised e w') => Some (report url e w')
            | Some (Normal w') => Some w'
            end
        end
    end.
Proof. reflexivity. Qed.

(** *** The function computes runs of the relation *)

Lemma follow_links_sound
    (self_crawl : string -> option string -> World -> option World) :
  (forall u b w w', self_crawl u b w = Some w' -> crawls u b w w') ->
  forall links url bu w o,
    follow_links self_crawl url bu links w = Some o ->
    follows url bu links w o.
Proof.
  intros Hself links url bu. induction links as [|[href|] links IH];
    intros w o H; simpl in H.
  - injection H as <-. constructor.
  - destruct (Str.nonempty href) eqn:Hne.
    + destruct (full_url url href) as [e|full] eqn:Hfull.
      * injection H as <-. now constructor.
      * destruct (Str.startswith full (scope_base bu url)) eqn:Hscope.
        -- destruct (self_crawl full (Some (scope_base bu url)) w)
             as [w1|] eqn:Hrec; [|discriminate].
           eapply follows_in_scope; eauto.
        -- eapply follows_out_of_scope; eauto.
    + destruct href; [|discriminate]. constructor. auto.
  - constructor. auto.
Qed.

Lemma crawl_sound (fuel : nat) :
  forall url bu w w', crawl fuel url bu w = Some w' -> crawls url bu w w'.
Proof.
  induction fuel as [|fuel IH]; intros url bu w w' H; [discriminate|].
  rewrite crawl_S in H.
  destruct (decide (url ∈ visited w)) as [Hin|Hout].
  { injection H as <-. apply crawls_seen, Hin. }
  destruct (requests_get url) as [e|text] eqn:Hget.
  { injection H as <-. apply crawls_get_raises; assumption. }
  destruct (BeautifulSoup text) as [e|soup] eqn:Hsoup.
  { injection H as <-. eapply crawls_soup_raises; eassumption. }
  match type of H with
  | match ?f with _ => _ end = _ => destruct f as [[w1|e w1]|] eqn:Hloop
  end; [| |discriminate]; injection H as <-.
  - eapply crawls_done; eauto. eapply follow_links_sound; eauto.
  - eapply crawls_link_raises; eauto. eapply follow_links_sound; eauto.
Qed.

(** *** Every run extends the world it starts from *)

Lemma crawls_follows_extends :
  (forall url bu w w', crawls url bu w w' -> exists t, extends w w' t) /\
  (forall url bu links w o,
      follows url bu links w o -> exists t, extends w (world_of o) t).
Proof.
  apply crawls_follows_ind; simpl.
  - intros url bu w _. eapply ex_intro. apply extends_call.
  - intros url bu w e Hout _. eapply ex_intro.
    eapply extends_trans; [|apply extends_report].
    apply extends_fetching, Hout.
  - intros url bu w text e Hout _ _. eapply ex_intro.
    eapply extends_trans; [|apply extends_report].
    apply extends_fetching, Hout.
  - intros url bu w text soup e w' Hout _ _ _ [t Ht]. eapply ex_intro.
    eapply extends_trans; [|apply extends_report].
    eapply extends_trans; [|exact Ht]. apply extends_stored, Hout.
  - intros url bu w text soup w' Hout _ _ _ [t Ht]. eapply ex_intro.
    eapply extends_trans; [|exact Ht]. apply extends_stored, Hout.
  - intros _ _ w. eapply ex_intro. apply extends_refl.
  - auto.
  - auto.
  - intros _ _ _ _ w _ _ _. eapply ex_intro. apply extends_refl.
  - auto.
  - intros url bu href links w full w1 o _ _ _ _ [t1 H1] _ [t2 H2].
    eapply ex_intro. eapply extends_trans; eassumption.
Qed.

Lemma follows_extends url bu links w o :
  follows url bu links w o -> exists t, extends w (world_of o) t.
Proof. apply crawls_follows_extends. Qed.

(** A run starts by entering [crawl]. *)
Lemma crawls_starts_with_call url bu w w' :
  crawls url bu w w' ->
  exists t, extends w w' (Call url bu :: t).
Proof.
  intros H. inversion H; subst.
  - eapply ex_intro. apply extends_call.
  - eapply ex_intro.
    eapply (extends_trans _ _ _ [Call url bu; Add url; Get url]);
      [apply extends_fetching; assumption|apply extends_report].
  - eapply ex_intro.
    eapply (extends_trans _ _ _ [Call url bu; Add url; Get url]);
      [apply extends_fetching; assumption|apply extends_report].
  - match goal with Hf : follows _ _ _ _ _ |- _ =>
      destruct (follows_extends _ _ _ _ _ Hf) as [t Ht] end.
    eapply ex_intro.
    eapply (extends_trans _ _ _ ([Call url bu; Add url; Get url] ++ t));
      [|apply extends_report].
    eapply extends_trans; [|exact Ht]. apply extends_stored; assumption.
  - match goal with Hf : follows _ _ _ _ _ |- _ =>
      destruct (follows_extends _ _ _ _ _ Hf) as [t Ht] end.
    eapply ex_intro.
    eapply (extends_trans _ _ _ [Call url bu; Add url; Get url]);
      [apply extends_stored; assumption|exact Ht].
Qed.

(** What a terminated call of the function did. *)
Lemma crawl_extends fuel url bu w w' :
  crawl fuel url bu w = Some w' ->
  exists t, extends w w' (Call url bu :: t).
Proof. intros H. eapply crawls_starts_with_call, crawl_sound, H. Qed.

(** A call for a visited URL returns at once, whatever the fuel. *)
Lemma crawl_seen fuel url bu w :
  url ∈ visited w -> crawl (S fuel) url bu w = Some (log (Call url bu) w).
Proof.
  intros H. rewrite crawl_S.
  destruct (decide (url ∈ visited w)); [reflexivity|tauto].
Qed.

(** C1. Visit at most once: a call of [crawl] for a URL that is already
    in [visited] returns at once, leaving [index] and [visited] as they
    were and fetching nothing.  In every run, from any state and for any
    link graph, the URLs inserted into [visited] are pairwise distinct
    and were not in it before, so that each URL is inserted at most once;
    every fetch comes directly after the insertion of the fetched URL,
    and the fetched URLs are pairwise distinct. *)
Theorem crawl_visits_once :
  (forall fuel url bu w,
      url ∈ visited w ->
      crawl (S fuel) url bu w = Some (log (Call url bu) w)) /\
  (forall fuel url bu w w',
      crawl fuel url bu w = Some w' ->
      exists t,
        trace w' = trace w ++ t /\
        NoDup (adds t) /\
        (forall u, In u (adds t) -> u ∉ visited w) /\
        (forall u, u ∈ visited w' <-> u ∈ visited w \/ In u (adds t)) /\
        (forall t1 u t2,
            t = t1 ++ Get u :: t2 ->
            exists t0 b, t1 = t0 ++ [Call u b; Add u]) /\
        NoDup (gets t) /\
        (forall u, In u (gets t) -> u ∉ visited w)).
Proof.
  split; [exact crawl_seen|].
  intros fuel url bu w w' H.
  destruct (crawl_extends _ _ _ _ _ H) as [t [T P N F V O K]].
  exists (Call url bu :: t). split_and!; try assumption.
  - now apply paired_before_get.
  - now rewrite (paired_gets_adds _ P).
  - intros u. rewrite (paired_gets_adds _ P). apply F.
Qed.

(** *** Failing fetches *)

(** C4. Fetch failure: when [crawl] is called for a URL [u] that is not
    yet visited, in a state whose index holds visited URLs only, and the
    fetch of [u] raises [e], the call returns; afterwards [u] is visited,
    the index is unchanged and has no entry for [u], and the call did
    exactly this: it entered, marked [u], fetched [u] and printed
    "Error crawling u: e", without any recursive call.  No later run
    from a state in which [u] is visited fetches [u] again. *)
Theorem fetch_failure_handled fuel u bu w e :
  u ∉ visited w ->
  index_in_visited w ->
  requests_get u = inl e ->
  exists w',
    crawl (S fuel) u bu w = Some w' /\
    u ∈ visited w' /\
    index w' = index w /\
    ~ In u (keys (index w')) /\
    trace w' = trace w ++
      [Call u bu; Add u; Get u;
       Print ("Error crawling " +:+ u +:+ ": " +:+ e)] /\
    (forall fuel2 url2 bu2 w1 w2 t,
        u ∈ visited w1 ->
        crawl fuel2 url2 bu2 w1 = Some w2 ->
        trace w2 = trace w1 ++ t ->
        ~ In (Get u) t).
Proof.
  intros Hout Hinv Hget. rewrite crawl_S.
  destruct (decide (u ∈ visited w)) as [Hin|_]; [tauto|]. rewrite Hget.
  eexists. split; [reflexivity|]. simpl. split_and!.
  - apply elem_of_union_l, elem_of_singleton. reflexivity.
  - reflexivity.
  - intros Hk. apply Hout, Hinv, Hk.
  - now rewrite <- !app_assoc.
  - intros fuel2 url2 bu2 w1 w2 t Hin H T Hget_again.
    destruct (crawl_extends _ _ _ _ _ H) as [t' [T' P _ F _ _ _]].
    rewrite T' in T. apply app_inv_head in T. subst t.
    apply in_gets in Hget_again. rewrite (paired_gets_adds _ P) in Hget_again.
    exact (F u Hget_again Hin).
Qed.

(** *** Invariants of the calls of a run *)

Lemma on_calls_nil K : on_calls K [].
Proof. intros u b []. Qed.

Lemma on_calls_app K t1 t2 :
  on_calls K t1 -> on_calls K t2 -> on_calls K (t1 ++ t2).
Proof. intros H1 H2 u b [H|H]%in_app_iff; auto. Qed.

Section CallInvariant.

(** [J] holds of the call the run starts with, [K] of the recursive calls;
    the recursive calls of a call satisfying [J] satisfy [K]. *)
Variables J K : string -> option string -> Prop.
Hypothesis K_J : forall u b, K u b -> J u b.
Hypothesis J_step :
  forall url bu text soup href full,
    J url bu ->
    requests_get url = inr text ->
    BeautifulSoup text = inr soup ->
    In (Some href) (find_all_a soup) ->
    Str.nonempty href = true ->
    full_url url href = inr full ->
    Str.startswith full (scope_base bu url) = true ->
    K full (Some (scope_base bu url)).

Lemma calls_invariant :
  (forall url bu w w',
      crawls url bu w w' ->
      J url bu ->
      exists t, trace w' = trace w ++ Call url bu :: t /\ on_calls K t) /\
  (forall url bu links w o,
      follows url bu links w o ->
      J url bu ->
      (exists text soup,
          requests_get url = inr text /\ BeautifulSoup text = inr soup /\
          incl links (find_all_a soup)) ->
      exists t, trace (world_of o) = trace w ++ t /\ on_calls K t).
Proof.
  apply crawls_follows_ind; simpl.
  - intros url bu w _ _. exists []. split; [reflexivity|apply on_calls_nil].
  - intros url bu w e _ _ _. eexists. split; [now rewrite <- !app_assoc|].
    intros u b H. simpl in H. intuition discriminate.
  - intros url bu w text e _ _ _ _. eexists.
    split; [now rewrite <- !app_assoc|].
    intros u b H. simpl in H. intuition discriminate.
  - intros url bu w text soup e w' _ Hget Hsoup _ IH HJ.
    destruct (IH HJ) as (t & T & HK).
    { exists text, soup. split_and!; [assumption..|apply incl_refl]. }
    exists ([Add url; Get url] ++ t ++ [Print (error_line url e)]).
    split; [rewrite T; simpl; now rewrite <- !app_assoc|].
    repeat apply on_calls_app; try assumption;
      intros u b H; simpl in H; intuition discriminate.
  - intros url bu w text soup w' _ Hget Hsoup _ IH HJ.
    destruct (IH HJ) as (t & T & HK).
    { exists text, soup. split_and!; [assumption..|apply incl_refl]. }
    exists ([Add url; Get url] ++ t).
    split; [rewrite T; simpl; now rewrite <- !app_assoc|].
    apply on_calls_app; [|assumption].
    intros u b H; simpl in H; intuition discriminate.
  - intros url bu w _ _. exists []. split; [now rewrite app_nil_r|].
    apply on_calls_nil.
  - intros url bu links w o _ IH HJ (text & soup & Hget & Hsoup & Hincl).
    apply IH; [assumption|]. exists text, soup. split_and!; try assumption.
    intros x Hx. apply Hincl. now right.
  - intros url bu links w o _ IH HJ (text & soup & Hget & Hsoup & Hincl).
    apply IH; [assumption|]. exists text, soup. split_and!; try assumption.
    intros x Hx. apply Hincl. now right.
  - intros url bu href links w e _ _ _ _. exists [].
    split; [now rewrite app_nil_r|apply on_calls_nil].
  - intros url bu href links w full o _ _ _ _ IH HJ
      (text & soup & Hget & Hsoup & Hincl).
    apply IH; [assumption|]. exists text, soup. split_and!; try assumption.
    intros x Hx. apply Hincl. now right.
  - intros url bu href links w full w1 o Hne Hfull Hscope _ IHc _ IHf HJ
      (text & soup & Hget & Hsoup & Hincl).
    assert (HK : K full (Some (scope_base bu url))).
    { eapply J_step; eauto. apply Hincl. now left. }
    destruct (IHc (K_J _ _ HK)) as (t1 & T1 & K1).
    destruct (IHf HJ) as (t2 & T2 & K2).
    { exists text, soup. split_and!; try assumption.
      intros x Hx. apply Hincl. now right. }
    exists ((Call full (Some (scope_base bu url)) :: t1) ++ t2).
    split; [rewrite T2, T1; now rewrite <- app_assoc|].
    apply on_calls_app; [|assumption].
    intros u b [[= <- <-]|H]; auto.
Qed.

End CallInvariant.

(** *** Scope *)

Lemma scope_base_some (base u : string) :
  base <> "" -> scope_base (Some base) u = base.
Proof. intros H. simpl. now destruct base. Qed.

(** With a non-empty scope base, every recursive call of a run passes
    that base on and is for a URL that starts with it. *)
Lemma crawl_calls_in_scope fuel seed base_url w w' :
  crawl fuel seed base_url w = Some w' ->
  scope_base base_url seed <> "" ->
  exists t,
    trace w' = trace w ++ Call seed base_url :: t /\
    on_calls (fun u b =>
                b = Some (scope_base base_url seed) /\
                Str.startswith u (scope_base base_url seed) = true) t.
Proof.
  intros H Hne. set (base := scope_base base_url seed) in *.
  apply crawl_sound in H.
  refine (proj1 (calls_invariant (fun u b => scope_base b u = base) _ _ _)
            _ _ _ _ H eq_refl).
  - intros u b [-> _]. now apply scope_base_some.
  - intros url bu text soup href full HJ _ _ _ _ _ Hscope.
    rewrite HJ in *. now split.
Qed.

(** C2 (amended). Scope containment: in a run of [crawl(seed, base_url)]
    from any state, with scope base [base_url or seed] (the argument when
    it is given and not empty, the seed otherwise), every URL fetched
    after the entry of the call is the seed itself or starts with the
    scope base, and so does every key that the index gains; when the
    scope base is not empty, every recursive call receives it unchanged
    as [base_url] and is for a URL that starts with it. *)
Theorem scope_containment fuel seed base_url w w' :
  crawl fuel seed base_url w = Some w' ->
  exists t,
    trace w' = trace w ++ Call seed base_url :: t /\
    (forall u, In (Get u) t ->
        u = seed \/ Str.startswith u (scope_base base_url seed) = true) /\
    (forall k, In k (keys (index w')) ->
        In k (keys (index w)) \/ k = seed
        \/ Str.startswith k (scope_base base_url seed) = true) /\
    (scope_base base_url seed <> "" ->
     forall u b, In (Call u b) t ->
        b = Some (scope_base base_url seed) /\
        Str.startswith u (scope_base base_url seed) = true).
Proof.
  intros H. destruct (crawl_extends _ _ _ _ _ H) as [t [T P _ _ _ _ Knew]].
  exists t. split; [assumption|].
  assert (Hget : forall u, In (Get u) t ->
            u = seed \/ Str.startswith u (scope_base base_url seed) = true).
  { intros u Hu. destruct (scope_base base_url seed) as [|c base] eqn:Hb.
    { right. reflexivity. }
    destruct (crawl_calls_in_scope _ _ _ _ _ H) as (t' & T' & HK).
    { rewrite Hb. discriminate. }
    rewrite T in T'. apply app_inv_head in T'. injection T' as <-.
    destruct (paired_get_called _ u P) as [b [[= <- <-]|Hb']];
      [now right|now left|].
    right. rewrite <- Hb. now apply (HK u b). }
  split_and!.
  - exact Hget.
  - intros k Hk. destruct (Knew k Hk) as [Hold|Hnew]; [now left|right].
    apply Hget. rewrite <- (paired_gets_adds _ P) in Hnew.
    apply in_gets in Hnew. destruct Hnew as [[=]|Hnew]. exact Hnew.
  - intros Hne u b Hu.
    destruct (crawl_calls_in_scope _ _ _ _ _ H Hne) as (t' & T' & HK).
    rewrite T in T'. apply app_inv_head in T'. injection T' as <-.
    now apply HK.
Qed.

(** *** More fuel changes nothing *)

Lemma follow_links_mono
    (self1 self2 : string -> option string -> World -> option World) :
  (forall u b w w', self1 u b w = Some w' -> self2 u b w = Some w') ->
  forall links url bu w o,
    follow_links self1 url bu links w = Some o ->
    follow_links self2 url bu links w = Some o.
Proof.
  intros Hself links url bu.
  induction links as [|[href|] links IH]; intros w o H; simpl in *; auto.
  destruct (Str.nonempty href); auto.
  destruct (full_url url href) as [e|full]; auto.
  destruct (Str.startswith full (scope_base bu url)); auto.
  destruct (self1 full (Some (scope_base bu url)) w) as [w1|] eqn:H1;
    [|discriminate].
  rewrite (Hself _ _ _ _ H1). auto.
Qed.

Lemma crawl_fuel_S fuel :
  forall url bu w w',
    crawl fuel url bu w = Some w' -> crawl (S fuel) url bu w = Some w'.
Proof.
  induction fuel as [|fuel IH]; intros url bu w w' H; [discriminate|].
  rewrite crawl_S in H. rewrite crawl_S.
  destruct (decide (url ∈ visited w)); [assumption|].
  destruct (requests_get url) as [e|text]; [assumption|].
  destruct (BeautifulSoup text) as [e|soup]; [assumption|].
  match type of H with
  | match ?f with _ => _ end = _ => destruct f as [o|] eqn:Hloop
  end; [|discriminate].
  now rewrite (follow_links_mono _ _ IH _ _ _ _ _ Hloop).
Qed.

Lemma crawl_fuel_mono fuel fuel' url bu w w' :
  fuel <= fuel' ->
  crawl fuel url bu w = Some w' -> crawl fuel' url bu w = Some w'.
Proof. induction 1; auto using crawl_fuel_S. Qed.

(** *** Termination on a finite set of reachable URLs *)

Section Termination.

Variables (seed : string) (base_url : option string) (U : list string).
Hypothesis U_closed : forall u b, reach seed base_url u b -> In u U.

(** The URLs of [U] that are not visited yet. *)
Let todo (w : World) : gset string := list_to_set U ∖ visited w.

Lemma todo_bound w : size (todo w) <= length U.
Proof.
  unfold size, set_size. simpl. apply submseteq_length, NoDup_submseteq.
  - apply NoDup_elements.
  - intros x Hx%elem_of_elements.
    now apply elem_of_difference in Hx as [Hx%elem_of_list_to_set _].
Qed.

Lemma todo_shrinks w w' t : extends w w' t -> size (todo w') <= size (todo w).
Proof.
  intros [_ _ _ _ V _ _]. apply subseteq_size. intros x.
  unfold todo. rewrite !elem_of_difference, V. tauto.
Qed.

Lemma todo_visit u b text w :
  In u U -> u ∉ visited w ->
  size (todo (index_set u text (fetching u b w))) < size (todo w).
Proof.
  intros HU Hout. apply subset_size. split.
  - intros x. unfold todo. rewrite !elem_of_difference. simpl.
    rewrite elem_of_union. tauto.
  - intros Hsub. specialize (Hsub u). unfold todo in Hsub.
    rewrite !elem_of_difference, elem_of_list_to_set in Hsub. simpl in Hsub.
    rewrite elem_of_union, elem_of_singleton in Hsub.
    apply Hsub; [|now left]. split; [now apply list_elem_of_In|assumption].
Qed.

Lemma follow_links_terminates n url bu text soup :
  (forall u b w, reach seed base_url u b -> size (todo w) <= n ->
                 exists w', crawl (S n) u b w = Some w') ->
  reach seed base_url url bu ->
  requests_get url = inr text ->
  BeautifulSoup text = inr soup ->
  forall links w,
    incl links (find_all_a soup) ->
    size (todo w) <= n ->
    exists o, follow_links (crawl (S n)) url bu links w = Some o.
Proof.
  intros IHn Hreach Hget Hsoup.
  induction links as [|[href|] links IH]; intros w Hincl Hsize; simpl.
  - eauto.
  - assert (Hrest : incl links (find_all_a soup))
      by (intros x Hx; apply Hincl; now right).
    destruct (Str.nonempty href) eqn:Hne; [|now apply IH].
    destruct (full_url url href) as [e|full] eqn:Hfull; [eauto|].
    destruct (Str.startswith full (scope_base bu url)) eqn:Hscope;
      [|now apply IH].
    assert (Hchild : reach seed base_url full (Some (scope_base bu url))).
    { eapply reach_link; eauto. apply Hincl. now left. }
    destruct (IHn _ _ w Hchild Hsize) as [w1 H1].
    rewrite H1. apply IH; [assumption|].
    destruct (crawl_extends _ _ _ _ _ H1) as [t Ht].
    pose proof (todo_shrinks _ _ _ Ht). lia.
  - apply IH; [|assumption]. intros x Hx; apply Hincl; now right.
Qed.

Lemma crawl_terminates_within n :
  forall u b w,
    reach seed base_url u b ->
    size (todo w) <= n ->
    exists w', crawl (S n) u b w = Some w'.
Proof.
  induction n as [|n IHn]; intros u b w Hreach Hsize.
  - destruct (decide (u ∈ visited w)) as [Hin|Hout].
    + eexists. now apply crawl_seen.
    + exfalso. assert (Hu : u ∈ todo w).
      { apply elem_of_difference. split; [|assumption].
        apply elem_of_list_to_set, list_elem_of_In. eauto. }
      assert (size (todo w) = 0) as Hz%size_empty_inv by lia.
      apply Hz in Hu. now apply not_elem_of_empty in Hu.
  - destruct (decide (u ∈ visited w)) as [Hin|Hout].
    + eexists. now apply crawl_seen.
    + rewrite crawl_S.
      destruct (decide (u ∈ visited w)); [tauto|].
      destruct (requests_get u) as [e|text] eqn:Hget; [eauto|].
      destruct (BeautifulSoup text) as [e|soup] eqn:Hsoup; [eauto|].
      pose proof (todo_visit u b (get_text soup) w (U_closed _ _ Hreach) Hout).
      destruct (follow_links_terminates n u b text soup IHn Hreach Hget Hsoup
                  (find_all_a soup)
                  (index_set u (get_text soup) (fetching u b w)))
        as [o Ho]; [apply incl_refl|lia|].
      rewrite Ho. destruct o; eauto.
Qed.

(** Every URL fetched by a run started at the seed is reachable. *)
Lemma crawl_gets_reachable fuel w w' t :
  crawl fuel seed base_url w = Some w' ->
  trace w' = trace w ++ t ->
  forall u, In u (gets t) -> exists b, reach seed base_url u b.
Proof.
  intros H T u Hu%in_gets.
  destruct (crawl_extends _ _ _ _ _ H) as [t' [T' P _ _ _ _ _]].
  rewrite T' in T. apply app_inv_head in T. subst t.
  destruct (proj1 (calls_invariant (reach seed base_url) (reach seed base_url)
                     (fun _ _ H => H)
                     (fun url bu text soup href full =>
                        reach_link _ _ _ _ seed base_url url bu text soup
                                   href full))
              _ _ _ _ (crawl_sound _ _ _ _ _ H) (reach_seed _ _ _ _ _ _))
    as (t2 & T2 & HK).
  rewrite T' in T2. apply app_inv_head in T2. injection T2 as <-.
  destruct (paired_get_called _ u P Hu) as [b [[= <- <-]|Hb]].
  - exists base_url. constructor.
  - exists b. now apply HK.
Qed.

Lemma crawl_terminates_bounded w :
  exists w' t,
    (forall fuel, length U < fuel -> crawl fuel seed base_url w = Some w') /\
    trace w' = trace w ++ t /\
    NoDup (gets t) /\
    (forall u, In u (gets t) -> In u U) /\
    length (gets t) <= length U.
Proof.
  destruct (crawl_terminates_within (length U) seed base_url w
              (reach_seed _ _ _ _ _ _) (todo_bound w)) as [w' H].
  destruct (crawl_extends _ _ _ _ _ H) as [t [T P N F V O K]].
  assert (HU : forall u, In u (gets (Call seed base_url :: t)) -> In u U).
  { intros u Hu. destruct (crawl_gets_reachable _ _ _ _ H T u Hu) as [b Hb].
    eauto. }
  assert (Hnd : NoDup (gets (Call seed base_url :: t))).
  { now rewrite (paired_gets_adds _ P). }
  exists w', (Call seed base_url :: t). split_and!; try assumption.
  - intros fuel Hfuel. apply (crawl_fuel_mono (S (length U))); [lia|exact H].
  - apply submseteq_length, NoDup_submseteq; [assumption|].
    intros u Hu%list_elem_of_In. apply list_elem_of_In. auto.
Qed.

End Termination.

(** *** Failure isolation *)

Lemma fetching_visited url bu text w :
  url ∈ visited (index_set url text (fetching url bu w)).
Proof. simpl. apply elem_of_union_l, elem_of_singleton. reflexivity. Qed.

(** After a call for [url], [url] is visited. *)
Lemma crawls_visits url bu w w' : crawls url bu w w' -> url ∈ visited w'.
Proof.
  intros H. inversion H; subst; simpl.
  - assumption.
  - apply elem_of_union_l, elem_of_singleton. reflexivity.
  - apply elem_of_union_l, elem_of_singleton. reflexivity.
  - match goal with Hf : follows _ _ _ _ _ |- _ =>
      destruct (follows_extends _ _ _ _ _ Hf) as [t [_ _ _ _ V _ _]] end.
    apply V. left. apply fetching_visited.
  - match goal with Hf : follows _ _ _ _ _ |- _ =>
      destruct (follows_extends _ _ _ _ _ Hf) as [t [_ _ _ _ V _ _]] end.
    apply V. left. apply fetching_visited.
Qed.

(** A URL that a run marks as visited, and whose fetch and parse succeed,
    is in the index afterwards. *)
Lemma crawls_follows_index :
  (forall url bu w w',
      crawls url bu w w' ->
      forall v text soup,
        v ∈ visited w' -> v ∉ visited w ->
        requests_get v = inr text -> BeautifulSoup text = inr soup ->
        In v (keys (index w'))) /\
  (forall url bu links w o,
      follows url bu links w o ->
      forall v text soup,
        v ∈ visited (world_of o) -> v ∉ visited w ->
        requests_get v = inr text -> BeautifulSoup text = inr soup ->
        In v (keys (index (world_of o)))).
Proof.
  assert (Hroot : forall url bu text0 w v,
             v ∈ visited (index_set url text0 (fetching url bu w)) ->
             v ∉ visited w -> v = url).
  { intros url bu text0 w v Hin Hout. simpl in Hin.
    apply elem_of_union in Hin as [Hin%elem_of_singleton|Hin]; tauto. }
  assert (Hpage : forall url bu w (o : outcome) links v soup0,
             follows url bu links
                     (index_set url (get_text soup0) (fetching url bu w)) o ->
             (forall v text soup,
                 v ∈ visited (world_of o) ->
                 v ∉ visited (index_set url (get_text soup0)
                                (fetching url bu w)) ->
                 requests_get v = inr text -> BeautifulSoup text = inr soup ->
                 In v (keys (index (world_of o)))) ->
             forall text soup,
               v ∈ visited (world_of o) -> v ∉ visited w ->
               requests_get v = inr text -> BeautifulSoup text = inr soup ->
               In v (keys (index (world_of o)))).
  { intros url bu w o links v soup0 Hf IH text soup Hin Hout Hg Hs.
    destruct (follows_extends _ _ _ _ _ Hf) as [t [_ _ _ _ _ Old _]].
    destruct (decide (v ∈ visited (index_set url (get_text soup0)
                                     (fetching url bu w)))) as [Hv|Hv].
    - apply Old. rewrite (Hroot _ _ _ _ _ Hv Hout).
      simpl. apply in_keys_dict_set. now left.
    - eapply IH; eassumption. }
  apply crawls_follows_ind; simpl.
  - intros url bu w _ v text soup Hin Hout. tauto.
  - intros url bu w e _ Hget v text soup Hin Hout Hg _.
    rewrite (Hroot url bu "" w v Hin Hout) in Hg. congruence.
  - intros url bu w text0 e _ Hget Hsoup v text soup Hin Hout Hg Hs.
    rewrite (Hroot url bu "" w v Hin Hout) in Hg. congruence.
  - intros url bu w text0 soup0 e w' _ _ _ Hf IH v text soup.
    apply (Hpage url bu w (Raised e w') _ v soup0 Hf IH).
  - intros url bu w text0 soup0 w' _ _ _ Hf IH v text soup.
    apply (Hpage url bu w (Normal w') _ v soup0 Hf IH).
  - intros url bu w v text soup Hin Hout. tauto.
  - auto.
  - auto.
  - intros url bu href links w e _ _ v text soup Hin Hout. tauto.
  - auto.
  - intros url bu href links w full w1 o _ _ _ Hc IHc Hf IHf
      v text soup Hin Hout Hg Hs.
    destruct (follows_extends _ _ _ _ _ Hf) as [t [_ _ _ _ _ Old _]].
    destruct (decide (v ∈ visited w1)) as [Hv|Hv].
    + apply Old. eapply IHc; eassumption.
    + eapply IHf; eassumption.
Qed.

(** When no earlier link of the page raises during resolution, the loop
    comes to a link in scope and its URL is visited afterwards. *)
Lemma follows_reaches_link url bu href full post :
  Str.nonempty href = true ->
  full_url url href = inr full ->
  Str.startswith full (scope_base bu url) = true ->
  forall pre w o,
    follows url bu (pre ++ Some href :: post) w o ->
    (forall h, In (Some h) pre -> Str.nonempty h = true ->
               exists f, full_url url h = inr f) ->
    full ∈ visited (world_of o).
Proof.
  intros Hne Hfull Hscope pre.
  induction pre as [|link pre IH]; intros w o H Hok; simpl in H.
  - inversion H; subst; try discriminate; try congruence.
    match goal with Hf : follows _ _ post _ _ |- _ =>
      destruct (follows_extends _ _ _ _ _ Hf) as [t [_ _ _ _ V _ _]] end.
    apply V. left. eapply crawls_visits.
    match goal with Hc : crawls ?f _ _ _ |- _ =>
      assert (f = full) as <- by congruence; exact Hc end.
  - assert (Hok' : forall h, In (Some h) pre -> Str.nonempty h = true ->
                             exists f, full_url url h = inr f)
      by (intros h Hin; apply Hok; now right).
    inversion H; subst; eauto.
    destruct (Hok href0) as [f Hf]; [now left|assumption|congruence].
Qed.

(** C5 (amended). Failure isolation: when the fetch of a link [A] of a
    page fails, the loop over the links of the page goes on with the
    links that follow, in the state the failed call leaves ([A] visited,
    the error printed).  Whatever fetches fail in the run, a link [B] of
    a fetched page that is in scope and not yet visited is fetched during
    the run, provided that no link before it on the page makes the URL
    resolution raise; and [B] is in the index afterwards when its own
    fetch and parse succeed. *)
Theorem failure_isolation :
  (forall fuel parent bu hrefA A e rest w,
      Str.nonempty hrefA = true ->
      full_url parent hrefA = inr A ->
      Str.startswith A (scope_base bu parent) = true ->
      A ∉ visited w ->
      requests_get A = inl e ->
      follow_links (crawl (S fuel)) parent bu (Some hrefA :: rest) w
      = follow_links (crawl (S fuel)) parent bu rest
          (report A e (fetching A (Some (scope_base bu parent)) w))) /\
  (forall fuel parent bu w w' text soup pre hrefB post B,
      crawl fuel parent bu w = Some w' ->
      parent ∉ visited w ->
      requests_get parent = inr text ->
      BeautifulSoup text = inr soup ->
      find_all_a soup = pre ++ Some hrefB :: post ->
      (forall h, In (Some h) pre -> Str.nonempty h = true ->
                 exists f, full_url parent h = inr f) ->
      Str.nonempty hrefB = true ->
      full_url parent hrefB = inr B ->
      Str.startswith B (scope_base bu parent) = true ->
      B ∉ visited w ->
      exists t,
        trace w' = trace w ++ t /\
        In (Get B) t /\
        (forall textB soupB,
            requests_get B = inr textB ->
            BeautifulSoup textB = inr soupB ->
            In B (keys (index w')))).
Proof.
  split.
  - intros fuel parent bu hrefA A e rest w Hne Hfull Hscope Hout Hget.
    simpl. rewrite Hne, Hfull, Hscope, crawl_S.
    destruct (decide (A ∈ visited w)); [tauto|]. now rewrite Hget.
  - intros fuel parent bu w w' text soup pre hrefB post B
      H Hout Hget Hsoup Hlinks Hok Hne Hfull Hscope HB.
    pose proof (crawl_sound _ _ _ _ _ H) as Hrun.
    assert (Hvis : B ∈ visited w').
    { inversion Hrun; subst; try tauto; try congruence.
      all: match goal with
           | Hs : BeautifulSoup _ = inr ?y,
             Hf : follows _ _ (find_all_a ?y) _ _ |- _ =>
               assert (y = soup) as -> by congruence;
               rewrite Hlinks in Hf;
               apply (follows_reaches_link _ _ _ _ _ Hne Hfull Hscope
                        _ _ _ Hf Hok)
           end. }
    destruct (crawl_extends _ _ _ _ _ H) as [t [T P N F V O K]].
    exists (Call parent bu :: t). split_and!.
    + assumption.
    + apply in_gets. rewrite (paired_gets_adds _ P).
      destruct (proj1 (V B) Hvis); tauto.
    + intros textB soupB HgetB HsoupB.
      eapply (proj1 crawls_follows_index); eassumption.
Qed.

(** *** Links *)

Lemma follow_links_filter self_crawl url bu links w :
  follow_links self_crawl url bu links w
  = follow_links self_crawl url bu (List.filter has_target links) w.
Proof.
  revert w. induction links as [|[href|] links IH]; intros w; simpl; auto.
  destruct (Str.nonempty href) eqn:Hne; simpl; [|apply IH].
  rewrite Hne. destruct (full_url url href) as [e|full]; [reflexivity|].
  destruct (Str.startswith full (scope_base bu url)); [|apply IH].
  destruct (self_crawl full (Some (scope_base bu url)) w); auto.
Qed.

Lemma follow_links_ext
    (self1 self2 : string -> option string -> World -> option World) :
  (forall u b w, self1 u b w = self2 u b w) ->
  forall links url bu w,
    follow_links self1 url bu links w = follow_links self2 url bu links w.
Proof.
  intros Hself links url bu.
  induction links as [|[href|] links IH]; intros w; simpl; auto.
  destruct (Str.nonempty href); auto.
  destruct (full_url url href) as [e|full]; auto.
  destruct (Str.startswith full (scope_base bu url)); auto.
  rewrite Hself. destruct (self2 full (Some (scope_base bu url)) w); auto.
Qed.

(** *** The index holds visited URLs only *)

Lemma crawl_preserves_index_in_visited fuel url bu w w' :
  index_in_visited w ->
  crawl fuel url bu w = Some w' ->
  index_in_visited w'.
Proof.
  intros Hinv H k Hk.
  destruct (crawl_extends _ _ _ _ _ H) as [t [_ _ _ _ V _ Knew]].
  apply V. destruct (Knew k Hk); auto.
Qed.

End CrawlProofs.

(** ** Link resolution with [urllib] *)


















(** ** Segments *)

Lemma split_nonempty (c : ascii) (s : string) : Str.split c s <> [].
Proof.
  destruct s as [|d s]; simpl; [discriminate|].
  destruct (Ascii.eqb c d); [discriminate|].
  destruct (Str.split c s); discriminate.
Qed.

Lemma join_cons (sep x : string) (l : list string) :
  l <> [] -> Str.join sep (x :: l) = x +:+ sep +:+ Str.join sep l.
Proof. destruct l; [congruence|reflexivity]. Qed.

Lemma join_split (s : string) : Str.join "/" (Str.split "/" s) = s.
Proof.
  induction s as [|d s IH]; [reflexivity|]. cbn [Str.split].
  destruct (Ascii.eqb_spec "/" d) as [<-|_].
  - rewrite join_cons by apply split_nonempty. now rewrite IH.
  - destruct (Str.split "/" s) as [|x xs] eqn:E.
    + now destruct (split_nonempty "/" s).
    + rewrite <- IH. destruct xs; reflexivity.
Qed.









(** ** [urljoin] on a page and a path reference *)



















(** ** Dot segments and empty segments *)







(** ** Termination *)

(** The reachable URLs of the cyclic scenario. *)
Lemma cyclic_reach u b :
  reach cyclic_get cyclic_soup py_urlparse py_urljoin
        "https://example.com" None u b ->
  In u ["https://example.com"; "https://example.com/";
        "https://example.com/about"].
Proof.
  induction 1 as [|url bu text soup href full _ IH _ Hsoup Hin _ Hfull _].
  - now left.
  - injection Hsoup as <-. simpl in Hin.
    destruct IH as [<-|[<-|[<-|[]]]];
      destruct Hin as [[= <-]|[[= <-]|[]]];
      vm_compute in Hfull; injection Hfull as <-; simpl; tauto.
Qed.

(** C6. Termination: when the calls that can arise from
    [crawl(seed, base_url)] are for URLs of a finite list [U], then, from
    any state, the call returns for every fuel above the length of [U],
    always in the same state; it fetches URLs of [U] only, each at most
    once, hence at most [length U] times.  In the scenario where every
    page links to [/] and [/about], the seed [https://example.com] gives
    exactly three fetches. *)
Theorem crawl_terminates :
  (forall requests_get BeautifulSoup urlparse urljoin seed base_url
          (U : list string) w,
      (forall u b,
          reach requests_get BeautifulSoup urlparse urljoin seed base_url u b ->
          In u U) ->
      exists w' t,
        (forall fuel,
            length U < fuel ->
            crawl requests_get BeautifulSoup urlparse urljoin
                  fuel seed base_url w = Some w') /\
        trace w' = trace w ++ t /\
        NoDup (gets t) /\
        (forall u, In u (gets t) -> In u U) /\
        length (gets t) <= length U) /\
  (forall fuel,
      3 < fuel ->
      exists w',
        crawl cyclic_get cyclic_soup py_urlparse py_urljoin
              fuel "https://example.com" None init = Some w' /\
        gets (trace w') = ["https://example.com"; "https://example.com/";
                           "https://example.com/about"]).
Proof.
  split.
  - intros. now apply crawl_terminates_bounded.
  - intros fuel Hfuel. eexists. split.
    + apply (crawl_fuel_mono _ _ _ _ 4); [lia|]. vm_compute. reflexivity.
    + reflexivity.
Qed.

(** ** Search *)

Lemma search_loop_filter unicode_lower keyword items results :
  search_loop unicode_lower keyword items results
  = results ++
    map fst (List.filter
               (fun item =>
                  Str.contains (lower unicode_lower (snd item))
                               (lower unicode_lower keyword))
               items).
Proof.
  revert results. induction items as [|[url text] items IH]; intros results.
  - simpl. now rewrite app_nil_r.
  - simpl. destruct (Str.contains (lower unicode_lower text)
                                  (lower unicode_lower keyword)).
    + rewrite IH. simpl. now rewrite <- app_assoc.
    + apply IH.
Qed.


(** ** Presentation *)

Lemma fold_log_lines (lines : list string) (w : World) :
  fold_left (fun w result => log (Print ("- " +:+ result)) w) lines w
  = {| index := index w; visited := visited w;
       trace := trace w ++ map (fun result => Print ("- " +:+ result)) lines |}.
Proof.
  revert w. induction lines as [|l lines IH]; intros w; simpl.
  - rewrite app_nil_r. now destruct w.
  - rewrite IH. simpl. now rewrite <- app_assoc.
Qed.

Lemma print_results_trace results w :
  print_results results w
  = {| index := index w; visited := visited w;
       trace := trace w ++
         match results with
         | [] => [Print "No results found."]
         | _ :: _ =>
             Print "Search results:"
             :: map (fun result => Print ("- " +:+ result)) results
         end |}.
Proof.
  destruct results as [|r results]; [reflexivity|].
  unfold print_results. rewrite fold_log_lines. simpl.
  now rewrite <- app_assoc.
Qed.

(** C8. Output of [print_results]: for an empty list the single line
    "No results found." is printed; for any other list the line
    "Search results:" and then, in order, one line per result made of
    "- " and the result, also when the result is the empty string.
    Nothing else happens: [index] and [visited] are unchanged. *)
Theorem print_results_output results w :
  trace (print_results results w)
  = trace w ++
    match results with
    | [] => [Print "No results found."]
    | _ :: _ =>
        Print "Search results:"
        :: map (fun result => Print ("- " +:+ result)) results
    end /\
  index (print_results results w) = index w /\
  visited (print_results results w) = visited w /\
  print_results [""] w
  = log (Print "- ") (log (Print "Search results:") w).
Proof.
  rewrite print_results_trace. split_and!; reflexivity.
Qed.

(** ** The index holds visited URLs only *)

(** C9. Every key of the index is in [visited]: this holds of a new
    crawler and is kept by [crawl] on every path, by [search], which
    changes nothing, and by [print_results], which only prints. *)
Theorem index_keys_visited requests_get BeautifulSoup urlparse urljoin
    unicode_lower :
  index_in_visited init /\
  (forall w,
      index_in_visited w ->
      (forall fuel url bu w',
          crawl requests_get BeautifulSoup urlparse urljoin fuel url bu w
          = Some w' ->
          index_in_visited w') /\
      (forall keyword,
          snd (search unicode_lower keyword w) = w /\
          index_in_visited (snd (search unicode_lower keyword w))) /\
      (forall results,
          index (print_results results w) = index w /\
          visited (print_results results w) = visited w /\
          index_in_visited (print_results results w))).
Proof.
  split; [intros k []|]. intros w Hinv. split_and!.
  - intros fuel url bu w'.
    now apply crawl_preserves_index_in_visited.
  - intros keyword. now split.
  - intros results. rewrite print_results_trace. split_and!; try reflexivity.
    exact Hinv.
Qed.

(** ** Anchors without target *)

Lemma crawl_without_empty_anchors requests_get BeautifulSoup urlparse urljoin
    fuel :
  forall url bu w,
    crawl requests_get BeautifulSoup urlparse urljoin fuel url bu w
    = crawl requests_get
            (fun text =>
               match BeautifulSoup text with
               | inl e => inl e
               | inr soup => inr (without_empty_anchors soup)
               end)
            urlparse urljoin fuel url bu w.
Proof.
  induction fuel as [|fuel IH]; intros url bu w; [reflexivity|].
  rewrite !crawl_S. destruct (decide (url ∈ visited w)); [reflexivity|].
  destruct (requests_get url) as [e|text]; [reflexivity|].
  destruct (BeautifulSoup text) as [e|soup]; [reflexivity|]. simpl.
  rewrite follow_links_filter.
  now rewrite (follow_links_ext _ _ _ _ IH).
Qed.

(** C10. Anchors without target: an anchor whose [href] is absent or the
    empty string is passed over, the loop goes on with the next anchor in
    the same state, without resolving anything and without a recursive
    call; a run on a page is the run on the same page without these
    anchors, so they add nothing to [visited], to the index or to the
    fetches. *)
Theorem empty_href_skipped requests_get BeautifulSoup urlparse urljoin :
  (forall self_crawl url bu links w,
      follow_links urlparse urljoin self_crawl url bu (None :: links) w
      = follow_links urlparse urljoin self_crawl url bu links w) /\
  (forall self_crawl url bu links w,
      follow_links urlparse urljoin self_crawl url bu (Some "" :: links) w
      = follow_links urlparse urljoin self_crawl url bu links w) /\
  (forall fuel url bu w,
      crawl requests_get BeautifulSoup urlparse urljoin fuel url bu w
      = crawl requests_get
              (fun text =>
                 match BeautifulSoup text with
                 | inl e => inl e
                 | inr soup => inr (without_empty_anchors soup)
                 end)
              urlparse urljoin fuel url bu w).
Proof.
  split_and!; try reflexivity.
  intros. apply crawl_without_empty_anchors.
Qed.

(** ** The scenarios *)

Lemma cyclic_run :
  crawl cyclic_get cyclic_soup py_urlparse py_urljoin
        4 "https://example.com" None init = Some cyclic_final.
Proof. vm_compute. reflexivity. Qed.

Lemma siblings_run :
  crawl siblings_get siblings_soup py_urlparse py_urljoin
        2 "https://example.com" None init = Some siblings_final.
Proof. vm_compute. reflexivity. Qed.

Lemma broken_run :
  crawl siblings_get broken_soup py_urlparse py_urljoin
        2 "https://example.com" None init = Some broken_final.
Proof. vm_compute. reflexivity. Qed.

Lemma lonely_run :
  crawl lonely_get siblings_soup py_urlparse py_urljoin
        2 "https://example.com" None init = Some lonely_final.
Proof. vm_compute. reflexivity. Qed.

Lemma outside_run :
  crawl cyclic_get cyclic_soup py_urlparse py_urljoin
        1 "https://other.org" (Some "https://example.com") init
  = Some outside_final.
Proof. vm_compute. reflexivity. Qed.

Lemma init_fresh (u : string) : u ∉ visited init.
Proof. apply not_elem_of_empty. Qed.

Lemma init_index_in_visited : index_in_visited init.
Proof. intros k []. Qed.

(** The cyclic scenario is an instance of C1: a call for a visited URL
    returns at once, and the run from a new crawler inserts and fetches
    each of the three URLs once. *)
Lemma crawl_visits_once_witness :
  crawl cyclic_get cyclic_soup py_urlparse py_urljoin
        1 "https://example.com/about" None cyclic_final
  = Some (log (Call "https://example.com/about" None) cyclic_final) /\
  exists t,
    trace cyclic_final = trace init ++ t /\
    NoDup (adds t) /\
    (forall u, In u (adds t) -> u ∉ visited init) /\
    (forall u, u ∈ visited cyclic_final <-> u ∈ visited init \/ In u (adds t)) /\
    (forall t1 u t2,
        t = t1 ++ Get u :: t2 ->
        exists t0 b, t1 = t0 ++ [Call u b; Add u]) /\
    NoDup (gets t) /\
    (forall u, In u (gets t) -> u ∉ visited init).
Proof.
  destruct (crawl_visits_once cyclic_get cyclic_soup py_urlparse py_urljoin)
    as [Hseen Hrun].
  split.
  - apply Hseen. simpl. rewrite !elem_of_union, !elem_of_singleton. tauto.
  - apply (Hrun 4 "https://example.com" None init cyclic_final).
    exact cyclic_run.
Defined.

(** C2 as stated fails: with an explicit scope base of which the seed is
    not an extension, the seed is fetched and indexed all the same. *)
Lemma seed_outside_scope_base_fetched :
  crawl cyclic_get cyclic_soup py_urlparse py_urljoin
        1 "https://other.org" (Some "https://example.com") init
  = Some outside_final /\
  Str.startswith "https://other.org" "https://example.com" = false /\
  In (Get "https://other.org") (trace outside_final) /\
  In "https://other.org" (keys (index outside_final)).
Proof.
  split_and!.
  - exact outside_run.
  - reflexivity.
  - simpl. tauto.
  - simpl. tauto.
Qed.

(** The cyclic scenario is an instance of the amended C2. *)
Lemma scope_containment_witness :
  exists t,
    trace cyclic_final = trace init ++ Call "https://example.com" None :: t /\
    (forall u, In (Get u) t ->
        u = "https://example.com"
        \/ Str.startswith u (scope_base None "https://example.com") = true) /\
    (forall k, In k (keys (index cyclic_final)) ->
        In k (keys (index init)) \/ k = "https://example.com"
        \/ Str.startswith k (scope_base None "https://example.com") = true) /\
    (scope_base None "https://example.com" <> "" ->
     forall u b, In (Call u b) t ->
        b = Some (scope_base None "https://example.com") /\
        Str.startswith u (scope_base None "https://example.com") = true).
Proof.
  apply (scope_containment cyclic_get cyclic_soup py_urlparse py_urljoin
           4 "https://example.com" None init cyclic_final).
  exact cyclic_run.
Defined.



(** [test_crawl_error_handling] is an instance of C4. *)
Lemma fetch_failure_handled_witness :
  exists w',
    crawl failing_get cyclic_soup py_urlparse py_urljoin
          1 "https://example.com" None init = Some w' /\
    "https://example.com" ∈ visited w' /\
    index w' = index init /\
    ~ In "https://example.com" (keys (index w')) /\
    trace w' = trace init ++
      [Call "https://example.com" None; Add "https://example.com";
       Get "https://example.com";
       Print ("Error crawling " +:+ "https://example.com" +:+ ": "
              +:+ "Test Error")] /\
    (forall fuel2 url2 bu2 w1 w2 t,
        "https://example.com" ∈ visited w1 ->
        crawl failing_get cyclic_soup py_urlparse py_urljoin
              fuel2 url2 bu2 w1 = Some w2 ->
        trace w2 = trace w1 ++ t ->
        ~ In (Get "https://example.com") t).
Proof.
  apply (fetch_failure_handled failing_get cyclic_soup py_urlparse py_urljoin
           0 "https://example.com" None init "Test Error").
  - apply init_fresh.
  - exact init_index_in_visited.
  - reflexivity.
Defined.

(** C5 as stated fails, in two ways.  In the first run the fetch of [/a]
    fails, [/b] is a link of the same page, in scope, not visited, and
    its fetch would succeed; but a link between the two makes [urlparse]
    raise, the loop is left, and [/b] is neither fetched nor indexed.  In
    the second run no link raises and [/b] is fetched after the fetch of
    [/a] has failed; but its own fetch fails too, and it is not
    indexed. *)
Lemma sibling_not_fetched_or_not_indexed :
  (crawl siblings_get broken_soup py_urlparse py_urljoin
         2 "https://example.com" None init = Some broken_final /\
   siblings_get "https://example.com" = inr "https://example.com" /\
   broken_soup "https://example.com"
   = inr {| get_text := "Home";
            find_all_a := [Some "/a"; Some "//["; Some "/b"] |} /\
   full_url py_urlparse py_urljoin "https://example.com" "/a"
   = inr "https://example.com/a" /\
   siblings_get "https://example.com/a" = inl "Connection timed out" /\
   full_url py_urlparse py_urljoin "https://example.com" "//["
   = inl "Invalid IPv6 URL" /\
   full_url py_urlparse py_urljoin "https://example.com" "/b"
   = inr "https://example.com/b" /\
   Str.startswith "https://example.com/b"
                  (scope_base None "https://example.com") = true /\
   ("https://example.com/b" ∉ visited init) /\
   siblings_get "https://example.com/b" = inr "https://example.com/b" /\
   ~ In (Get "https://example.com/b") (trace broken_final) /\
   ~ In "https://example.com/b" (keys (index broken_final))) /\
  (crawl lonely_get siblings_soup py_urlparse py_urljoin
         2 "https://example.com" None init = Some lonely_final /\
   lonely_get "https://example.com" = inr "https://example.com" /\
   siblings_soup "https://example.com"
   = inr {| get_text := "Home";
            find_all_a := [Some "/a"; None; Some ""; Some "/b"] |} /\
   full_url py_urlparse py_urljoin "https://example.com" "/a"
   = inr "https://example.com/a" /\
   lonely_get "https://example.com/a" = inl "Connection timed out" /\
   full_url py_urlparse py_urljoin "https://example.com" "/b"
   = inr "https://example.com/b" /\
   Str.startswith "https://example.com/b"
                  (scope_base None "https://example.com") = true /\
   ("https://example.com/b" ∉ visited init) /\
   lonely_get "https://example.com/b" = inl "Connection timed out" /\
   In (Get "https://example.com/b") (trace lonely_final) /\
   ~ In "https://example.com/b" (keys (index lonely_final))).
Proof.
  split; split_and!;
    try reflexivity; try apply init_fresh;
    try exact broken_run; try exact lonely_run;
    simpl; intuition discriminate.
Qed.

(** The page with the two links [/a] and [/b] is an instance of the
    amended C5. *)
Lemma failure_isolation_witness :
  follow_links py_urlparse py_urljoin
    (crawl siblings_get siblings_soup py_urlparse py_urljoin 1)
    "https://example.com" None [Some "/a"; Some "/b"] init
  = follow_links py_urlparse py_urljoin
      (crawl siblings_get siblings_soup py_urlparse py_urljoin 1)
      "https://example.com" None [Some "/b"]
      (report "https://example.com/a" "Connection timed out"
         (fetching "https://example.com/a"
            (Some (scope_base None "https://example.com")) init)) /\
  (exists t,
      trace siblings_final = trace init ++ t /\
      In (Get "https://example.com/b") t /\
      In "https://example.com/b" (keys (index siblings_final))) /\
  (exists t,
      trace lonely_final = trace init ++ t /\
      In (Get "https://example.com/b") t).
Proof.
  destruct (failure_isolation siblings_get siblings_soup py_urlparse py_urljoin)
    as [Hloop Hsibling].
  destruct (failure_isolation lonely_get siblings_soup py_urlparse py_urljoin)
    as [_ Hlonely].
  assert (Hpre : forall h,
             In (Some h) [Some "/a"; None; Some ""] ->
             Str.nonempty h = true ->
             exists f,
               full_url py_urlparse py_urljoin "https://example.com" h
               = inr f).
  { intros h [[= <-]|[[=]|[[= <-]|[]]]] Hne; [|discriminate].
    exists "https://example.com/a". reflexivity. }
  split_and!.
  - apply (Hloop 0 "https://example.com" None "/a" "https://example.com/a"
             "Connection timed out" [Some "/b"] init);
      try reflexivity.
    apply init_fresh.
  - destruct (Hsibling 2 "https://example.com" None init siblings_final
                "https://example.com"
                {| get_text := "Home";
                   find_all_a := [Some "/a"; None; Some ""; Some "/b"] |}
                [Some "/a"; None; Some ""] "/b" []
                "https://example.com/b")
      as (t & T & Hget & Hindex);
      [exact siblings_run|apply init_fresh|reflexivity|reflexivity
      |reflexivity|exact Hpre|reflexivity|reflexivity|reflexivity
      |apply init_fresh|].
    exists t. split_and!; [assumption..|].
    apply (Hindex "https://example.com/b"
             {| get_text := "Leaf"; find_all_a := [] |}); reflexivity.
  - destruct (Hlonely 2 "https://example.com" None init lonely_final
                "https://example.com"
                {| get_text := "Home";
                   find_all_a := [Some "/a"; None; Some ""; Some "/b"] |}
                [Some "/a"; None; Some ""] "/b" []
                "https://example.com/b")
      as (t & T & Hget & _);
      [exact lonely_run|apply init_fresh|reflexivity|reflexivity
      |reflexivity|exact Hpre|reflexivity|reflexivity|reflexivity
      |apply init_fresh|].
    exists t. split; assumption.
Defined.

(** The cyclic scenario is an instance of C6. *)
Lemma crawl_terminates_witness :
  exists w' t,
    (forall fuel,
        length ["https://example.com"; "https://example.com/";
                "https://example.com/about"] < fuel ->
        crawl cyclic_get cyclic_soup py_urlparse py_urljoin
              fuel "https://example.com" None init = Some w') /\
    trace w' = trace init ++ t /\
    NoDup (gets t) /\
    (forall u, In u (gets t) ->
               In u ["https://example.com"; "https://example.com/";
                     "https://example.com/about"]) /\
    length (gets t) <= length ["https://example.com"; "https://example.com/";
                               "https://example.com/about"].
Proof.
  apply (proj1 crawl_terminates cyclic_get cyclic_soup py_urlparse py_urljoin
           "https://example.com" None).
  exact cyclic_reach.
Defined.

(** The lowering of the scenarios maps no stretch outside ASCII to an
    ASCII character. *)
Lemma sigma_lower_images : ascii_images_ik sigma_lower.
Proof.
  intros before stretch after Hne Hs. unfold sigma_lower.
  destruct (String.eqb stretch "ΑΣ"); [split; reflexivity|].
  destruct (String.eqb stretch "Σ"); [split; reflexivity|].
  split; [exact Hne|]. clear Hne.
  induction stretch as [|c stretch IH]; [reflexivity|].
  simpl in *. apply andb_true_iff in Hs as [Hc Hs].
  rewrite (IH Hs), andb_true_r. unfold outside_or_ik. now rewrite Hc.
Qed.



(** The cyclic scenario is an instance of C9. *)
Lemma index_keys_visited_witness :
  index_in_visited init /\ index_in_visited cyclic_final.
Proof.
  destruct (index_keys_visited cyclic_get cyclic_soup py_urlparse py_urljoin
              sigma_lower) as [Hinit Hkept].
  split; [exact Hinit|].
  apply (proj1 (Hkept init Hinit) 4 "https://example.com" None cyclic_final).
  exact cyclic_run.
Defined.

(** * Further properties of the code *)

Lemma in_prints (l : string) (t : list event) :
  In l (prints t) <-> In (Print l) t.
Proof.
  unfold prints. rewrite in_flat_map. split.
  - intros ([] & Hin & Hl); simpl in Hl; try tauto.
    destruct Hl as [->|[]]. assumption.
  - intros H. exists (Print l). simpl. auto.
Qed.

Lemma dict_set_keeps_nodup (k v : string) (d : list (string * string)) :
  NoDup (keys d) -> NoDup (keys (dict_set k v d)).
Proof.
  intros H. rewrite keys_dict_set.
  destruct (existsb (String.eqb k) (keys d)) eqn:E; [assumption|].
  apply NoDup_app; split_and!; [assumption| |apply NoDup_singleton].
  intros x Hx Hk. apply list_elem_of_In in Hx, Hk.
  destruct Hk as [<-|[]].
  assert (existsb (String.eqb k) (keys d) = true); [|congruence].
  apply existsb_exists. exists k. split; [assumption|apply String.eqb_refl].
Qed.

Lemma in_dict_set (k v : string) (d : list (string * string)) item :
  In item (dict_set k v d) -> item = (k, v) \/ In item d.
Proof.
  induction d as [|[k' v'] d IH]; simpl.
  - intros [<-|[]]. now left.
  - destruct (String.eqb k k'); simpl; intros [<-|H]; auto.
    destruct (IH H); auto.
Qed.

Lemma dict_set_other (k v k' v' : string) (d : list (string * string)) :
  k' <> k -> In (k', v') d -> In (k', v') (dict_set k v d).
Proof.
  intros Hne. induction d as [|[k0 v0] d IH]; simpl; [tauto|].
  destruct (String.eqb_spec k k0) as [->|Hk]; simpl.
  - intros [[= <- <-]|H]; [congruence|now right].
  - intros [H|H]; [now left|right; auto].
Qed.

Lemma dict_set_new (k v : string) (d : list (string * string)) :
  ~ In k (keys d) -> keys (dict_set k v d) = keys d ++ [k].
Proof.
  intros H. rewrite keys_dict_set.
  destruct (existsb (String.eqb k) (keys d)) eqn:E; [|reflexivity].
  apply existsb_exists in E as (x & Hx & Hk).
  apply String.eqb_eq in Hk as <-. tauto.
Qed.

Lemma extends_index_in_visited w w' t :
  index_in_visited w -> extends w w' t -> index_in_visited w'.
Proof.
  intros Hinv [_ _ _ _ V _ K] k Hk. apply V. destruct (K k Hk); auto.
Qed.

Lemma indexable_fetched requests_get BeautifulSoup u text soup :
  requests_get u = inr text -> BeautifulSoup text = inr soup ->
  indexable requests_get BeautifulSoup u = true.
Proof. intros Hg Hs. unfold indexable. now rewrite Hg, Hs. Qed.

Lemma indexable_get_raises requests_get BeautifulSoup u e :
  requests_get u = inl e -> indexable requests_get BeautifulSoup u = false.
Proof. intros Hg. unfold indexable. now rewrite Hg. Qed.

Lemma indexable_soup_raises requests_get BeautifulSoup u text e :
  requests_get u = inr text -> BeautifulSoup text = inl e ->
  indexable requests_get BeautifulSoup u = false.
Proof. intros Hg Hs. unfold indexable. now rewrite Hg, Hs. Qed.

Section MoreCrawlProofs.

Context (requests_get : string -> Exception + string)
        (BeautifulSoup : string -> Exception + Soup)
        (urlparse : string -> Exception + urllib.ParseResult)
        (urljoin : string -> string -> Exception + string).

Local Abbreviation crawl := (crawl requests_get BeautifulSoup urlparse urljoin).
Local Abbreviation follow_links := (follow_links urlparse urljoin).
Local Abbreviation full_url := (full_url urlparse urljoin).
Local Abbreviation crawls := (crawls requests_get BeautifulSoup urlparse urljoin).
Local Abbreviation follows :=
  (follows requests_get BeautifulSoup urlparse urljoin).
Local Abbreviation reach := (reach requests_get BeautifulSoup urlparse urljoin).
Local Abbreviation indexable := (indexable requests_get BeautifulSoup).
Local Abbreviation links_resolve :=
  (links_resolve requests_get BeautifulSoup urlparse urljoin).

(** The events of a run are determined by its two ends. *)
Lemma extends_unique w w' t t' :
  extends w w' t -> trace w' = trace w ++ t' -> t' = t.
Proof.
  intros [T _ _ _ _ _ _] T'. rewrite T in T'. now apply app_inv_head in T'.
Qed.

(** X1. Crawling again: when [crawl(url, ...)] has returned, [url] is
    visited, and a second call for the same URL on the same crawler, with
    any scope base, returns at once: nothing is fetched, printed or
    stored. *)
Theorem crawl_again_returns_at_once fuel fuel' url bu bu' w w' :
  crawl fuel url bu w = Some w' ->
  url ∈ visited w' /\
  crawl (S fuel') url bu' w' = Some (log (Call url bu') w').
Proof.
  intros H. assert (Hv : url ∈ visited w').
  { eapply crawls_visits, crawl_sound, H. }
  split; [exact Hv|]. now apply crawl_seen.
Qed.

(** X2. Counting fetches: a run fetches exactly as many times as it
    adds URLs to [visited]; the size of [visited] grows by the number of
    calls of [requests.get]. *)
Theorem fetch_count fuel url bu w w' :
  crawl fuel url bu w = Some w' ->
  exists t,
    trace w' = trace w ++ t /\
    size (visited w') = size (visited w) + length (gets t).
Proof.
  intros H. destruct (crawl_extends _ _ _ _ _ _ _ _ _ H) as [t [T P N F V _ _]].
  exists (Call url bu :: t). split; [assumption|].
  rewrite (paired_gets_adds _ P).
  assert (E : visited w' = visited w ∪ list_to_set (adds (Call url bu :: t))).
  { apply set_eq. intros x.
    rewrite elem_of_union, elem_of_list_to_set, V, list_elem_of_In. tauto. }
  rewrite E, size_union.
  - now rewrite size_list_to_set.
  - apply elem_of_disjoint. intros x Hx Hx'%elem_of_list_to_set%list_elem_of_In.
    exact (F x Hx' Hx).
Qed.

(** X3. Parse failure: when [crawl] is called for a URL [u] that is not
    yet visited, the fetch succeeds and [BeautifulSoup] raises [e], the
    call returns with [u] visited and the index unchanged; it printed
    "Error crawling u: e" and made no recursive call. *)
Theorem parse_failure_handled fuel u bu w text e :
  u ∉ visited w ->
  requests_get u = inr text ->
  BeautifulSoup text = inl e ->
  exists w',
    crawl (S fuel) u bu w = Some w' /\
    visited w' = {[u]} ∪ visited w /\
    index w' = index w /\
    trace w' = trace w ++
      [Call u bu; Add u; Get u;
       Print ("Error crawling " +:+ u +:+ ": " +:+ e)].
Proof.
  intros Hout Hget Hsoup. rewrite crawl_S.
  destruct (decide (u ∈ visited w)) as [Hin|_]; [tauto|].
  rewrite Hget, Hsoup. eexists. split; [reflexivity|]. simpl.
  split_and!; try reflexivity. now rewrite <- !app_assoc.
Qed.

(** *** What a run prints *)

(** [diagnostic t]: every line printed in [t] is the error line of a URL
    fetched in [t]. *)
Let diagnostic (t : list event) : Prop :=
  forall line, In (Print line) t ->
    exists u e, line = error_line u e /\ In (Get u) t.

Lemma diagnostic_app t1 t2 :
  diagnostic t1 -> diagnostic t2 -> diagnostic (t1 ++ t2).
Proof.
  intros H1 H2 line [H|H]%in_app_iff.
  - destruct (H1 line H) as (u & e & -> & Hu). exists u, e.
    rewrite in_app_iff. auto.
  - destruct (H2 line H) as (u & e & -> & Hu). exists u, e.
    rewrite in_app_iff. auto.
Qed.

Lemma diagnostic_silent t :
  (forall line, ~ In (Print line) t) -> diagnostic t.
Proof. intros H line Hl. now apply H in Hl. Qed.

Lemma crawls_follows_diagnostic :
  (forall url bu w w',
      crawls url bu w w' ->
      exists t, trace w' = trace w ++ t /\ diagnostic t) /\
  (forall url bu links w o,
      follows url bu links w o ->
      exists t, trace (world_of o) = trace w ++ t /\ diagnostic t).
Proof.
  assert (Hfail : forall url bu e,
             diagnostic [Call url bu; Add url; Get url;
                         Print (error_line url e)]).
  { intros url bu e line Hl. simpl in Hl.
    destruct Hl as [[=]|[[=]|[[=]|[[= <-]|[]]]]].
    exists url, e. simpl. auto. }
  assert (Hpage : forall url bu t e,
             diagnostic t ->
             diagnostic (([Call url bu; Add url; Get url] ++ t)
                           ++ [Print (error_line url e)])).
  { intros url bu t e Ht line [[H|H]%in_app_iff|H]%in_app_iff.
    - simpl in H. intuition discriminate.
    - destruct (Ht line H) as (u & e' & -> & Hu). exists u, e'.
      rewrite !in_app_iff. auto.
    - destruct H as [[= <-]|[]]. exists url, e. simpl. auto. }
  apply crawls_follows_ind; simpl.
  - intros url bu w _. exists [Call url bu]. split; [reflexivity|].
    apply diagnostic_silent. intros line [[=]|[]].
  - intros url bu w e _ _. eapply ex_intro.
    split; [now rewrite <- !app_assoc|apply Hfail].
  - intros url bu w text e _ _ _. eapply ex_intro.
    split; [now rewrite <- !app_assoc|apply Hfail].
  - intros url bu w text soup e w' _ _ _ _ (t & T & Ht).
    eapply ex_intro. split; [|apply (Hpage url bu t e Ht)].
    rewrite T. simpl. now rewrite <- !app_assoc.
  - intros url bu w text soup w' _ _ _ _ (t & T & Ht).
    exists ([Call url bu; Add url; Get url] ++ t).
    split; [rewrite T; simpl; now rewrite <- !app_assoc|].
    apply diagnostic_app; [|assumption].
    apply diagnostic_silent. intros line H. simpl in H. intuition discriminate.
  - intros url bu w. exists []. split; [now rewrite app_nil_r|].
    intros line [].
  - auto.
  - auto.
  - intros url bu href links w e _ _. exists [].
    split; [now rewrite app_nil_r|]. intros line [].
  - auto.
  - intros url bu href links w full w1 o _ _ _ _ (t1 & T1 & H1) _
      (t2 & T2 & H2).
    exists (t1 ++ t2). split; [rewrite T2, T1; now rewrite app_assoc|].
    now apply diagnostic_app.
Qed.

(** X4. Diagnostics only: whatever a run of [crawl] prints is a line
    "Error crawling u: e" for a URL [u] that this very run fetched;
    [crawl] prints nothing else. *)
Theorem crawl_prints_error_lines_only fuel url bu w w' :
  crawl fuel url bu w = Some w' ->
  exists t,
    trace w' = trace w ++ t /\
    forall line,
      In line (prints t) ->
      exists u e,
        line = "Error crawling " +:+ u +:+ ": " +:+ e /\ In u (gets t).
Proof.
  intros H%crawl_sound.
  destruct (proj1 crawls_follows_diagnostic _ _ _ _ H) as (t & T & Ht).
  exists t. split; [assumption|].
  intros line Hl%in_prints. destruct (Ht line Hl) as (u & e & -> & Hu).
  exists u, e. split; [reflexivity|]. now apply in_gets.
Qed.

(** *** What a run stores *)

(** A relation between the index before and after a run holds as soon as
    it is reflexive, transitive and holds of storing the text of a page
    that was fetched and parsed. *)
Lemma crawls_follows_index_rel
    (R : list (string * string) -> list (string * string) -> Prop) :
  (forall d, R d d) ->
  (forall d1 d2 d3, R d1 d2 -> R d2 d3 -> R d1 d3) ->
  (forall d u text soup,
      requests_get u = inr text -> BeautifulSoup text = inr soup ->
      R d (dict_set u (get_text soup) d)) ->
  (forall url bu w w', crawls url bu w w' -> R (index w) (index w')) /\
  (forall url bu links w o,
      follows url bu links w o -> R (index w) (index (world_of o))).
Proof.
  intros Hrefl Htrans Hstore. apply crawls_follows_ind; simpl; eauto.
Qed.

(** X5. Index content: an item that a run adds to the index, or
    overwrites, pairs a URL with the text of the page fetched from it.
    Conversely, from a state whose index keys are visited, every URL that
    the run visits and whose fetch and parse succeed is stored with the
    text of its page when [crawl] returns. *)
Theorem index_stores_page_text fuel url bu w w' :
  crawl fuel url bu w = Some w' ->
  (forall u text,
      In (u, text) (index w') ->
      In (u, text) (index w) \/
      exists body soup,
        requests_get u = inr body /\ BeautifulSoup body = inr soup /\
        text = get_text soup) /\
  (index_in_visited w ->
   forall u body soup,
     u ∈ visited w' -> u ∉ visited w ->
     requests_get u = inr body -> BeautifulSoup body = inr soup ->
     In (u, get_text soup) (index w')).
Proof.
  intros H. pose proof (crawl_sound _ _ _ _ _ _ _ _ _ H) as Hrun.
  assert (Hsound : forall u text,
             In (u, text) (index w') ->
             In (u, text) (index w) \/
             exists body soup,
               requests_get u = inr body /\ BeautifulSoup body = inr soup /\
               text = get_text soup).
  { refine (proj1 (crawls_follows_index_rel
                     (fun d d' => forall u text, In (u, text) d' ->
                        In (u, text) d \/
                        exists body soup,
                          requests_get u = inr body /\
                          BeautifulSoup body = inr soup /\
                          text = get_text soup) _ _ _) _ _ _ _ Hrun).
    - auto.
    - intros d1 d2 d3 H12 H23 u text Hin.
      destruct (H23 u text Hin) as [Hin2|Hnew]; auto.
    - intros d u text soup Hget Hsoup u' text' Hin.
      apply in_dict_set in Hin as [[= -> ->]|Hin]; [right|now left].
      now exists text, soup. }
  split; [exact Hsound|].
  intros Hinv u body soup Hin Hout Hget Hsoup.
  pose proof (proj1 (crawls_follows_index _ _ _ _) _ _ _ _ Hrun
                u body soup Hin Hout Hget Hsoup) as Hkey.
  apply in_map_iff in Hkey as ([u' text] & Hu & Hitem). simpl in Hu. subst u'.
  destruct (Hsound u text Hitem) as [Hold|(body' & soup' & Hg & Hs & ->)].
  - exfalso. apply Hout, Hinv. apply in_map_iff. now exists (u, text).
  - assert (soup' = soup) as -> by congruence. exact Hitem.
Qed.

(** X6. Unique keys: a run keeps the keys of the index pairwise
    distinct, so that afterwards no search returns a URL twice. *)
Theorem index_keys_stay_distinct unicode_lower fuel url bu w w' :
  NoDup (keys (index w)) ->
  crawl fuel url bu w = Some w' ->
  NoDup (keys (index w')) /\
  forall keyword, NoDup (fst (search unicode_lower keyword w')).
Proof.
  intros Hnd H%crawl_sound.
  assert (Hnd' : NoDup (keys (index w'))).
  { refine (proj1 (crawls_follows_index_rel
                     (fun d d' => NoDup (keys d) -> NoDup (keys d')) _ _ _)
              _ _ _ _ H Hnd); auto.
    intros d u text soup _ _. apply dict_set_keeps_nodup. }
  split; [exact Hnd'|].
  intros keyword. unfold search. simpl. rewrite search_loop_filter. simpl.
  revert Hnd'. generalize (index w'). intros d.
  induction d as [|[u text] d IH]; simpl; [constructor|].
  intros [Hu Hd]%NoDup_cons.
  destruct (Str.contains (lower unicode_lower text)
              (lower unicode_lower keyword)); simpl; auto.
  apply NoDup_cons. split; [|auto].
  intros Hin%list_elem_of_In. apply Hu, list_elem_of_In.
  apply in_map_iff in Hin as ([u' text'] & Hu' & Hin). simpl in Hu'. subst u'.
  apply filter_In in Hin as [Hin _]. apply in_map_iff. now exists (u, text').
Qed.

(** *** The order of the index *)

(** [ordered w w' t]: [w'] is [w] after [t], and the index has gained, in
    the order of their fetches, the URLs fetched in [t] whose fetch and
    parse succeed. *)
Let ordered (w w' : World) (t : list event) : Prop :=
  extends w w' t /\
  keys (index w') = keys (index w) ++ List.filter indexable (gets t).

Lemma ordered_trans w w1 w2 t1 t2 :
  ordered w w1 t1 -> ordered w1 w2 t2 -> ordered w w2 (t1 ++ t2).
Proof.
  intros [E1 K1] [E2 K2]. split; [eapply extends_trans; eassumption|].
  unfold gets in *. rewrite K2, K1, flat_map_app, List.filter_app.
  now rewrite app_assoc.
Qed.

Lemma ordered_same_index w w' t :
  extends w w' t -> index w' = index w -> List.filter indexable (gets t) = [] ->
  ordered w w' t.
Proof. intros E Hi Hg. split; [assumption|]. now rewrite Hi, Hg, app_nil_r. Qed.

Lemma crawls_follows_ordered :
  (forall url bu w w',
      crawls url bu w w' ->
      index_in_visited w -> exists t, ordered w w' t) /\
  (forall url bu links w o,
      follows url bu links w o ->
      index_in_visited w -> exists t, ordered w (world_of o) t).
Proof.
  assert (Hfail : forall url bu w,
             url ∉ visited w -> indexable url = false ->
             ordered w (fetching url bu w) [Call url bu; Add url; Get url]).
  { intros url bu w Hout Hidx. apply ordered_same_index.
    - now apply extends_fetching.
    - reflexivity.
    - simpl. now rewrite Hidx. }
  assert (Hstore : forall url bu w text,
             url ∉ visited w -> index_in_visited w -> indexable url = true ->
             ordered w (index_set url text (fetching url bu w))
                     [Call url bu; Add url; Get url]).
  { intros url bu w text Hout Hinv Hidx. split.
    - now apply extends_stored.
    - simpl. rewrite Hidx. apply dict_set_new. intros Hk. apply Hout, Hinv, Hk. }
  assert (Hreport : forall url e w,
             ordered w (report url e w) [Print (error_line url e)]).
  { intros url e w. apply ordered_same_index;
      [apply extends_report|reflexivity|reflexivity]. }
  apply crawls_follows_ind; simpl.
  - intros url bu w _ _. exists [Call url bu].
    apply ordered_same_index; [apply extends_call|reflexivity|reflexivity].
  - intros url bu w e Hout Hget Hinv. eapply ex_intro.
    eapply ordered_trans; [|apply Hreport]. apply Hfail; [assumption|].
    eapply indexable_get_raises, Hget.
  - intros url bu w text e Hout Hget Hsoup Hinv. eapply ex_intro.
    eapply ordered_trans; [|apply Hreport]. apply Hfail; [assumption|].
    eapply indexable_soup_raises; eassumption.
  - intros url bu w text soup e w' Hout Hget Hsoup _ IH Hinv.
    pose proof (Hstore url bu w (get_text soup) Hout Hinv
                  (indexable_fetched _ _ _ _ _ Hget Hsoup)) as H1.
    destruct IH as [t Ht].
    { eapply extends_index_in_visited; [exact Hinv|apply H1]. }
    eapply ex_intro. eapply ordered_trans; [|apply Hreport].
    eapply ordered_trans; eassumption.
  - intros url bu w text soup w' Hout Hget Hsoup _ IH Hinv.
    pose proof (Hstore url bu w (get_text soup) Hout Hinv
                  (indexable_fetched _ _ _ _ _ Hget Hsoup)) as H1.
    destruct IH as [t Ht].
    { eapply extends_index_in_visited; [exact Hinv|apply H1]. }
    eapply ex_intro. eapply ordered_trans; eassumption.
  - intros url bu w _. exists [].
    apply ordered_same_index; [apply extends_refl|reflexivity|reflexivity].
  - auto.
  - auto.
  - intros url bu href links w e _ _ _. exists [].
    apply ordered_same_index; [apply extends_refl|reflexivity|reflexivity].
  - auto.
  - intros url bu href links w full w1 o _ _ _ _ IHc _ IHf Hinv.
    destruct (IHc Hinv) as [t1 H1]. destruct IHf as [t2 H2].
    { eapply extends_index_in_visited; [exact Hinv|apply H1]. }
    eapply ex_intro. eapply ordered_trans; eassumption.
Qed.

(** X7. Order of the index: from a state whose index keys are visited, a
    run appends to the keys of the index, in the order of their fetches,
    exactly the URLs it fetched whose fetch and parse succeeded; the
    order of the index, and so of search results, is the order in which
    the pages were fetched. *)
Theorem index_order_is_fetch_order fuel url bu w w' :
  index_in_visited w ->
  crawl fuel url bu w = Some w' ->
  exists t,
    trace w' = trace w ++ t /\
    keys (index w') = keys (index w) ++ List.filter indexable (gets t).
Proof.
  intros Hinv H%crawl_sound.
  destruct (proj1 crawls_follows_ordered _ _ _ _ H Hinv) as [t [E K]].
  exists t. split; [apply E|exact K].
Qed.

(** *** A link that cannot be resolved *)

Lemma follow_links_raise self_crawl url bu href post e :
  Str.nonempty href = true ->
  full_url url href = inl e ->
  forall pre w,
    follow_links self_crawl url bu (pre ++ Some href :: post) w
    = match follow_links self_crawl url bu pre w with
      | Some (Normal w1) => Some (Raised e w1)
      | other => other
      end.
Proof.
  intros Hne Hfull pre.
  induction pre as [|[h|] pre IH]; intros w; simpl.
  - now rewrite Hne, Hfull.
  - destruct (Str.nonempty h); [|apply IH].
    destruct (full_url url h) as [e'|full]; [reflexivity|].
    destruct (Str.startswith full (scope_base bu url)); [|apply IH].
    destruct (self_crawl full (Some (scope_base bu url)) w); [apply IH|].
    reflexivity.
  - apply IH.
Qed.

Lemma follow_links_no_raise self_crawl url bu pre :
  (forall h, In (Some h) pre -> Str.nonempty h = true ->
             exists f, full_url url h = inr f) ->
  forall w e w1, follow_links self_crawl url bu pre w <> Some (Raised e w1).
Proof.
  induction pre as [|[h|] pre IH]; intros Hok w e w1; simpl.
  - discriminate.
  - assert (Hok' : forall h', In (Some h') pre -> Str.nonempty h' = true ->
                              exists f, full_url url h' = inr f)
      by (intros h' Hin; apply Hok; now right).
    destruct (Str.nonempty h) eqn:Hne; [|now apply IH].
    destruct (Hok h (or_introl eq_refl) Hne) as [f ->].
    destruct (Str.startswith f (scope_base bu url)); [|now apply IH].
    destruct (self_crawl f (Some (scope_base bu url)) w); [now apply IH|].
    discriminate.
  - apply IH. intros h Hin. apply Hok. now right.
Qed.

(** X8. A link that cannot be resolved: when the page of [url] is fetched
    and parsed and [href] is its first link on which [urlparse] or
    [urljoin] raises, say [e], the call for [url] follows the links before
    [href] and then prints "Error crawling url: e": the links after
    [href] are not looked at, and [url] stays in the index. *)
Theorem unresolvable_link_ends_page fuel url bu w text soup pre href post e w' :
  url ∉ visited w ->
  requests_get url = inr text ->
  BeautifulSoup text = inr soup ->
  find_all_a soup = pre ++ Some href :: post ->
  (forall h, In (Some h) pre -> Str.nonempty h = true ->
             exists f, full_url url h = inr f) ->
  Str.nonempty href = true ->
  full_url url href = inl e ->
  crawl (S fuel) url bu w = Some w' ->
  exists w1,
    follow_links (crawl fuel) url bu pre
                 (index_set url (get_text soup) (fetching url bu w))
    = Some (Normal w1) /\
    w' = log (Print ("Error crawling " +:+ url +:+ ": " +:+ e)) w1 /\
    In url (keys (index w')).
Proof.
  intros Hout Hget Hsoup Hlinks Hok Hne Hfull H.
  rewrite crawl_S in H.
  destruct (decide (url ∈ visited w)) as [Hin|_]; [tauto|].
  rewrite Hget, Hsoup, Hlinks, (follow_links_raise _ _ _ _ _ _ Hne Hfull) in H.
  destruct (follow_links (crawl fuel) url bu pre
              (index_set url (get_text soup) (fetching url bu w)))
    as [[w1|e1 w1]|] eqn:Hpre; [| |discriminate].
  - injection H as <-. exists w1. split_and!; try reflexivity.
    apply follow_links_sound with (requests_get := requests_get)
      (BeautifulSoup := BeautifulSoup) in Hpre; [|apply crawl_sound].
    destruct (proj2 (crawls_follows_extends _ _ _ _) _ _ _ _ _ Hpre)
      as [t [_ _ _ _ _ Old _]].
    simpl. apply Old. simpl. apply in_keys_dict_set. now left.
  - exfalso. exact (follow_links_no_raise _ _ _ _ Hok _ _ _ Hpre).
Qed.

(** *** The traversal is complete *)

(** Every call that can arise has the scope base of the first call. *)
Lemma reach_scope_base seed bu u b :
  scope_base bu seed <> "" ->
  reach seed bu u b -> scope_base b u = scope_base bu seed.
Proof.
  intros Hne. induction 1 as [|url b text soup href full _ IH]; [reflexivity|].
  rewrite IH. now apply scope_base_some.
Qed.

(** [closed_under sb w w']: the links in scope [sb] of every page that was
    marked between [w] and [w'] and could be fetched and parsed lead to
    URLs that are visited in [w']. *)
Let closed_under (sb : string) (w w' : World) : Prop :=
  forall v text soup href full,
    v ∈ visited w' -> v ∉ visited w ->
    requests_get v = inr text -> BeautifulSoup text = inr soup ->
    In (Some href) (find_all_a soup) -> Str.nonempty href = true ->
    full_url v href = inr full -> Str.startswith full sb = true ->
    full ∈ visited w'.

Lemma closed_under_trans sb w w1 w2 t2 :
  extends w1 w2 t2 ->
  closed_under sb w w1 -> closed_under sb w1 w2 -> closed_under sb w w2.
Proof.
  intros [_ _ _ _ V _ _] H1 H2 v text soup href full Hin Hout Hg Hs Hl Hn Hf Hsc.
  destruct (decide (v ∈ visited w1)) as [Hv|Hv].
  - apply V. left. eapply H1; eassumption.
  - eapply H2; eassumption.
Qed.

Lemma crawls_follows_closed seed b0 sb :
  links_resolve seed b0 ->
  sb <> "" ->
  (forall url bu w w',
      crawls url bu w w' ->
      reach seed b0 url bu ->
      scope_base bu url = sb -> closed_under sb w w') /\
  (forall url bu links w o,
      follows url bu links w o ->
      reach seed b0 url bu ->
      scope_base bu url = sb ->
      (exists text soup,
          requests_get url = inr text /\ BeautifulSoup text = inr soup /\
          incl links (find_all_a soup)) ->
      closed_under sb w (world_of o) /\ exists w1, o = Normal w1).
Proof.
  intros Hres Hne.
  assert (Hroot : forall url bu text0 w v,
             v ∈ visited (index_set url text0 (fetching url bu w)) ->
             v ∉ visited w -> v = url).
  { intros url bu text0 w v Hin Hout. simpl in Hin.
    apply elem_of_union in Hin as [Hin%elem_of_singleton|Hin]; tauto. }
  assert (Hpage : forall url bu w text soup o,
             reach seed b0 url bu ->
             url ∉ visited w ->
             requests_get url = inr text -> BeautifulSoup text = inr soup ->
             scope_base bu url = sb ->
             follows url bu (find_all_a soup)
                     (index_set url (get_text soup) (fetching url bu w)) o ->
             closed_under sb
               (index_set url (get_text soup) (fetching url bu w))
               (world_of o) ->
             closed_under sb w (world_of o)).
  { intros url bu w text soup o Hr Hout Hget Hsoup Hsb Hf Hcl
      v text' soup' href full Hin Hv Hg Hs Hl Hn Hfu Hsc.
    destruct (decide (v ∈ visited (index_set url (get_text soup)
                                     (fetching url bu w)))) as [Hv1|Hv1].
    - assert (v = url) as -> by (eapply Hroot; eassumption).
      assert (soup' = soup) as -> by congruence.
      apply in_split in Hl as (pre & post & Hl). rewrite Hl in Hf.
      rewrite <- Hsb in Hsc.
      refine (follows_reaches_link _ _ _ _ _ _ _ _ _ Hn Hfu Hsc _ _ _ Hf _).
      intros h Hh Hhn.
      apply (Hres url bu text soup h Hr Hget Hsoup); [|assumption].
      rewrite Hl, in_app_iff. now left.
    - eapply Hcl; eassumption. }
  apply crawls_follows_ind; simpl.
  - intros url bu w _ _ _ v text soup href full Hin Hout. tauto.
  - intros url bu w e Hout Hget _ _ v text soup href full Hin Hv Hg.
    rewrite (Hroot url bu "" w v Hin Hv) in Hg. congruence.
  - intros url bu w text0 e Hout Hget Hsoup _ _
      v text soup href full Hin Hv Hg Hs.
    rewrite (Hroot url bu "" w v Hin Hv) in Hg. congruence.
  - intros url bu w text soup e w' _ Hget Hsoup _ IH Hr Hsb.
    destruct IH as [_ [w1 [=]]]; [assumption..|].
    exists text, soup. split_and!; [assumption..|apply incl_refl].
  - intros url bu w text soup w' Hout Hget Hsoup Hf IH Hr Hsb.
    destruct IH as [Hcl _]; [assumption..| |].
    { exists text, soup. split_and!; [assumption..|apply incl_refl]. }
    exact (Hpage url bu w text soup (Normal w') Hr Hout Hget Hsoup Hsb Hf Hcl).
  - intros url bu w _ _ _. split; [|now exists w].
    intros v text soup href full Hin Hout. tauto.
  - intros url bu links w o _ IH Hr Hsb (text & soup & Hget & Hsoup & Hincl).
    apply IH; [assumption..|]. exists text, soup. split_and!; try assumption.
    intros x Hx. apply Hincl. now right.
  - intros url bu links w o _ IH Hr Hsb (text & soup & Hget & Hsoup & Hincl).
    apply IH; [assumption..|]. exists text, soup. split_and!; try assumption.
    intros x Hx. apply Hincl. now right.
  - intros url bu href links w e Hn Hfull Hr _
      (text & soup & Hget & Hsoup & Hincl).
    destruct (Hres url bu text soup href Hr Hget Hsoup) as [f Hf];
      [apply Hincl; now left|assumption|congruence].
  - intros url bu href links w full o _ _ _ _ IH Hr Hsb
      (text & soup & Hget & Hsoup & Hincl).
    apply IH; [assumption..|]. exists text, soup. split_and!; try assumption.
    intros x Hx. apply Hincl. now right.
  - intros url bu href links w full w1 o Hn Hfull Hscope Hc IHc Hf IHf Hr Hsb
      (text & soup & Hget & Hsoup & Hincl).
    destruct IHf as [Hcl2 Hnormal]; [assumption..| |].
    { exists text, soup. split_and!; try assumption.
      intros x Hx. apply Hincl. now right. }
    split; [|exact Hnormal].
    destruct (proj2 (crawls_follows_extends _ _ _ _) _ _ _ _ _ Hf) as [t2 E2].
    eapply closed_under_trans; [exact E2| |exact Hcl2].
    apply IHc.
    + eapply reach_link; eauto. apply Hincl. now left.
    + rewrite Hsb. now apply scope_base_some.
Qed.

(** X9. Completeness of the traversal: started with nothing visited and
    a non-empty scope base, when no link of a page that the traversal can
    come to makes the URL resolution raise, a run of
    [crawl(seed, base_url)] visits exactly the URLs of the calls that can
    arise from it: the seed, and every URL that a link in scope of a
    fetched and parsed page of such a URL leads to. *)
Theorem crawl_visits_exactly_reachable fuel seed bu w w' :
  links_resolve seed bu ->
  scope_base bu seed <> "" ->
  (forall u, u ∉ visited w) ->
  crawl fuel seed bu w = Some w' ->
  forall u, u ∈ visited w' <-> exists b, reach seed bu u b.
Proof.
  intros Hres Hne Hfresh H u.
  pose proof (crawl_sound _ _ _ _ _ _ _ _ _ H) as Hrun. split.
  - intros Hu.
    destruct (crawl_extends _ _ _ _ _ _ _ _ _ H) as [t Ht].
    pose proof Ht as [T P _ _ V _ _].
    destruct (proj1 (V u) Hu) as [Hold|Hnew]; [now apply Hfresh in Hold|].
    rewrite <- (paired_gets_adds _ P) in Hnew.
    exact (crawl_gets_reachable _ _ _ _ _ _ _ _ _ _ H T u Hnew).
  - intros [b Hb].
    pose proof (proj1 (crawls_follows_closed _ _ _ Hres Hne) _ _ _ _ Hrun
                  (reach_seed _ _ _ _ _ _) eq_refl) as Hcl.
    induction Hb as [|url b text soup href full Hr IH Hg Hs Hl Hn Hf Hsc].
    + eapply crawls_visits, Hrun.
    + rewrite (reach_scope_base _ _ _ _ Hne Hr) in Hsc.
      exact (Hcl url text soup href full IH (Hfresh url) Hg Hs Hl Hn Hf Hsc).
Qed.

(** *** Crawling more *)

Lemma dict_set_fresh (k v : string) (d : list (string * string)) :
  ~ In k (keys d) -> dict_set k v d = d ++ [(k, v)].
Proof.
  induction d as [|[k' v'] d IH]; simpl; [reflexivity|]. intros Hk.
  destruct (String.eqb_spec k k') as [->|Hne]; [tauto|].
  rewrite IH; [reflexivity|tauto].
Qed.

Lemma crawls_follows_append :
  (forall url bu w w',
      crawls url bu w w' ->
      index_in_visited w -> exists items, index w' = index w ++ items) /\
  (forall url bu links w o,
      follows url bu links w o ->
      index_in_visited w ->
      exists items, index (world_of o) = index w ++ items).
Proof.
  assert (Hstore : forall url bu w soup o,
             url ∉ visited w -> index_in_visited w ->
             (index_in_visited
                (index_set url (get_text soup) (fetching url bu w)) ->
              exists items,
                index (world_of o)
                = index (index_set url (get_text soup) (fetching url bu w))
                  ++ items) ->
             exists items, index (world_of o) = index w ++ items).
  { intros url bu w soup o Hout Hinv IH. destruct IH as [items Hi].
    - eapply extends_index_in_visited; [exact Hinv|].
      now apply (extends_stored url (get_text soup) bu w).
    - rewrite Hi. simpl. rewrite dict_set_fresh.
      + rewrite <- app_assoc. eauto.
      + intros Hk. apply Hout, Hinv, Hk. }
  apply crawls_follows_ind; simpl.
  - intros url bu w _ _. exists []. now rewrite app_nil_r.
  - intros url bu w e _ _ _. exists []. now rewrite app_nil_r.
  - intros url bu w text e _ _ _ _. exists []. now rewrite app_nil_r.
  - intros url bu w text soup e w' Hout _ _ _ IH Hinv.
    exact (Hstore url bu w soup (Raised e w') Hout Hinv IH).
  - intros url bu w text soup w' Hout _ _ _ IH Hinv.
    exact (Hstore url bu w soup (Normal w') Hout Hinv IH).
  - intros url bu w _. exists []. now rewrite app_nil_r.
  - auto.
  - auto.
  - intros url bu href links w e _ _ _. exists []. now rewrite app_nil_r.
  - auto.
  - intros url bu href links w full w1 o _ _ _ Hc IHc _ IHf Hinv.
    destruct (IHc Hinv) as [i1 H1].
    destruct (proj1 (crawls_follows_extends _ _ _ _) _ _ _ _ Hc) as [t1 E1].
    destruct IHf as [i2 H2].
    { eapply extends_index_in_visited; eassumption. }
    exists (i1 ++ i2). now rewrite H2, H1, app_assoc.
Qed.

(** X10. Crawling more only appends: from a state whose index keys are
    visited, a run leaves the items of the index in place and appends new
    ones; so for every keyword the results of a search afterwards start
    with the results of the same search before. *)
Theorem crawl_extends_search_results unicode_lower fuel url bu w w' :
  index_in_visited w ->
  crawl fuel url bu w = Some w' ->
  (exists items, index w' = index w ++ items) /\
  (forall keyword,
      exists more,
        fst (search unicode_lower keyword w')
        = fst (search unicode_lower keyword w) ++ more).
Proof.
  intros Hinv H%crawl_sound.
  destruct (proj1 crawls_follows_append _ _ _ _ H Hinv) as [items Hi].
  split; [now exists items|].
  intros keyword. unfold search. simpl. rewrite !search_loop_filter. simpl.
  rewrite Hi, List.filter_app, map_app. eauto.
Qed.

(** A fetched URL is the seed or starts with the scope base. *)
Lemma crawl_gets_in_scope fuel seed bu w w' t :
  crawl fuel seed bu w = Some w' ->
  trace w' = trace w ++ t ->
  forall u, In (Get u) t ->
            u = seed \/ Str.startswith u (scope_base bu seed) = true.
Proof.
  intros H T u Hu.
  destruct (crawl_extends _ _ _ _ _ _ _ _ _ H) as [t' Ht'].
  pose proof (extends_unique _ _ _ _ Ht' T) as ->.
  destruct Ht' as [_ P _ _ _ _ _].
  destruct (scope_base bu seed) as [|c base] eqn:Hb; [now right|].
  destruct (crawl_calls_in_scope _ _ _ _ _ _ _ _ _ H) as (t2 & T2 & HK).
  { rewrite Hb. discriminate. }
  rewrite T in T2. apply app_inv_head in T2. injection T2 as <-.
  destruct (paired_get_called _ u P Hu) as [b [[= <- <-]|Hcall]];
    [now left|].
  right. rewrite <- Hb. now apply (HK u b).
Qed.

End MoreCrawlProofs.

(** ** Search, again *)

Lemma contains_empty (s : string) : Str.contains s "" = true.
Proof. destruct s; reflexivity. Qed.

Lemma contains_trans (s m k : string) :
  Str.contains s m = true -> Str.contains m k = true ->
  Str.contains s k = true.
Proof.
  rewrite !contains_spec. intros (a & b & ->) (c & d & ->).
  exists (a +:+ c), (d +:+ b). now rewrite !str_app_assoc.
Qed.

Lemma startswith_refl (s : string) : Str.startswith s s = true.
Proof.
  induction s as [|c s IH]; simpl; [reflexivity|].
  now rewrite Ascii.eqb_refl.
Qed.

Lemma in_search unicode_lower keyword w url :
  In url (fst (search unicode_lower keyword w)) <->
  exists text,
    In (url, text) (index w) /\
    Str.contains (lower unicode_lower text) (lower unicode_lower keyword)
    = true.
Proof.
  unfold search. simpl. rewrite search_loop_filter. simpl.
  rewrite in_map_iff. split.
  - intros ([u text] & <- & [Hin Ht]%filter_In). now exists text.
  - intros (text & Hin & Ht). exists (url, text). split; [reflexivity|].
    now apply filter_In.
Qed.

(** X11. The empty keyword: [search("")] returns every key of the index,
    in the order of the index. *)
Theorem search_empty_keyword unicode_lower w :
  fst (search unicode_lower "" w) = keys (index w).
Proof.
  unfold search. simpl. rewrite search_loop_filter. simpl. unfold keys.
  induction (index w) as [|[u text] d IH]; [reflexivity|].
  change (lower unicode_lower "") with "" in *.
  cbn [List.filter map fst snd]. rewrite contains_empty.
  cbn [map fst]. now rewrite IH.
Qed.

(** X12. ASCII keywords: whatever the texts of the index are, two ASCII
    keywords that are equal up to the case of their letters give the same
    results, and an ASCII keyword that contains another one, case
    insensitively, finds no page that the other one does not find. *)
Theorem search_keyword_case_and_narrowing unicode_lower w k1 k2 :
  Str.isascii k1 = true ->
  Str.isascii k2 = true ->
  (ci_eq k1 k2 = true ->
   search unicode_lower k1 w = search unicode_lower k2 w) /\
  (ci_substring k1 k2 ->
   forall url,
     In url (fst (search unicode_lower k2 w)) ->
     In url (fst (search unicode_lower k1 w))).
Proof.
  intros H1 H2. split.
  - intros Hk%ci_eq_spec. unfold search.
    rewrite !search_loop_filter, (lower_ascii _ _ H1), (lower_ascii _ _ H2), Hk.
    reflexivity.
  - intros Hk%contains_lower_spec url (text & Hin & Ht)%in_search.
    apply in_search. exists text. split; [assumption|].
    rewrite (lower_ascii _ _ H1). rewrite (lower_ascii _ _ H2) in Ht.
    eapply contains_trans; eassumption.
Qed.

(** ** [main] *)

(** X13. [main]: when the crawl of [main] returns, [main] ends by
    printing the presentation of the pages found for "test": either
    "No results found." or the header and one line per URL.  Every URL
    printed was fetched by the crawl, starts with the start URL, and is
    stored with a text whose lowering contains "test"; the text contains
    "test" case-insensitively when it is ASCII, and whatever it is when
    Unicode lowers no character outside ASCII to an ASCII character
    other than [i] and [k]; anything printed before is an error line of
    the crawl. *)
Theorem main_prints_matching_pages requests_get BeautifulSoup urlparse urljoin
    unicode_lower fuel w' :
  main requests_get BeautifulSoup urlparse urljoin unicode_lower fuel
  = Some w' ->
  exists wc,
    crawl requests_get BeautifulSoup urlparse urljoin
          fuel "https://example.com" None init = Some wc /\
    index w' = index wc /\
    visited w' = visited wc /\
    trace w' = trace wc
               ++ presentation (fst (search unicode_lower "test" wc)) /\
    (forall line,
        In line (prints (trace wc)) ->
        exists u e, line = "Error crawling " +:+ u +:+ ": " +:+ e) /\
    (forall r,
        In r (fst (search unicode_lower "test" wc)) ->
        In (Get r) (trace wc) /\
        Str.startswith r "https://example.com" = true /\
        exists text,
          In (r, text) (index wc) /\
          Str.contains (lower unicode_lower text) "test" = true /\
          (Str.isascii text = true \/ ascii_images_ik unicode_lower ->
           ci_substring "test" text)).
Proof.
  unfold main.
  destruct (crawl requests_get BeautifulSoup urlparse urljoin fuel
              "https://example.com" None init) as [wc|] eqn:H; [|discriminate].
  intros [= <-]. exists wc. split; [reflexivity|].
  unfold search at 1. cbn [fst snd]. rewrite print_results_trace.
  cbn [index visited trace].
  split_and!; try reflexivity.
  - intros line Hl.
    destruct (crawls_follows_diagnostic requests_get BeautifulSoup
                urlparse urljoin) as [Hd _].
    destruct (Hd _ _ _ _ (crawl_sound _ _ _ _ _ _ _ _ _ H)) as (t & T & Ht).
    simpl in T. rewrite T in Hl. apply in_prints in Hl.
    destruct (Ht line Hl) as (u & e & -> & _). now exists u, e.
  - intros r Hr.
    apply in_search in Hr as (text & Hin & Ht).
    change (lower unicode_lower "test") with "test" in Ht.
    destruct (crawl_extends _ _ _ _ _ _ _ _ _ H) as [t Ht'].
    pose proof Ht' as [T P _ _ _ _ K].
    assert (Hget : In (Get r) (Call "https://example.com" None :: t)).
    { apply in_gets. rewrite (paired_gets_adds _ P).
      destruct (K r) as [[]|Hnew]; [|exact Hnew].
      apply in_map_iff. now exists (r, text). }
    simpl in T. split_and!.
    + now rewrite T.
    + destruct (crawl_gets_in_scope _ _ _ _ _ _ _ _ _ _ H T r Hget)
        as [->|Hs]; [reflexivity|exact Hs].
    + exists text. split_and!; [assumption..|].
      intros [Ha|Hi].
      * rewrite (lower_ascii _ _ Ha) in Ht.
        now apply (contains_lower_spec "test" text).
      * now apply (contains_lower_ci_substring unicode_lower "test" text).
Qed.

(** ** Instances of the further properties *)

Lemma main_run :
  main cyclic_get test_soup py_urlparse py_urljoin sigma_lower 3
  = Some main_final.
Proof. vm_compute. reflexivity. Qed.

(** In the cyclic scenario every link of every page resolves. *)
Lemma cyclic_links_resolve :
  links_resolve cyclic_get cyclic_soup py_urlparse py_urljoin
                "https://example.com" None.
Proof.
  intros url bu text soup href Hreach _ Hsoup Hin _. injection Hsoup as <-.
  apply cyclic_reach in Hreach. simpl in Hin.
  destruct Hreach as [<-|[<-|[<-|[]]]];
    destruct Hin as [[= <-]|[[= <-]|[]]]; eexists; vm_compute; reflexivity.
Qed.

Lemma crawl_again_returns_at_once_witness :
  ("https://example.com" ∈ visited cyclic_final) /\
  crawl cyclic_get cyclic_soup py_urlparse py_urljoin
        1 "https://example.com" (Some "https://example.com") cyclic_final
  = Some (log (Call "https://example.com" (Some "https://example.com"))
              cyclic_final).
Proof.
  exact (crawl_again_returns_at_once cyclic_get cyclic_soup py_urlparse
           py_urljoin 4 0 "https://example.com" None
           (Some "https://example.com") init cyclic_final cyclic_run).
Defined.

Lemma fetch_count_witness :
  exists t,
    trace cyclic_final = trace init ++ t /\
    size (visited cyclic_final) = size (visited init) + length (gets t).
Proof.
  exact (fetch_count cyclic_get cyclic_soup py_urlparse py_urljoin
           4 "https://example.com" None init cyclic_final cyclic_run).
Defined.

Lemma parse_failure_handled_witness :
  exists w',
    crawl cyclic_get failing_soup py_urlparse py_urljoin
          1 "https://example.com" None init = Some w' /\
    visited w' = {[ "https://example.com" ]} ∪ visited init /\
    index w' = index init /\
    trace w' = trace init ++
      [Call "https://example.com" None; Add "https://example.com";
       Get "https://example.com";
       Print ("Error crawling " +:+ "https://example.com" +:+ ": "
              +:+ "not html")].
Proof.
  apply (parse_failure_handled cyclic_get failing_soup py_urlparse py_urljoin
           0 "https://example.com" None init "cyclic_html" "not html").
  - apply init_fresh.
  - reflexivity.
  - reflexivity.
Defined.

Lemma crawl_prints_error_lines_only_witness :
  exists t,
    trace siblings_final = trace init ++ t /\
    forall line,
      In line (prints t) ->
      exists u e,
        line = "Error crawling " +:+ u +:+ ": " +:+ e /\ In u (gets t).
Proof.
  exact (crawl_prints_error_lines_only siblings_get siblings_soup py_urlparse
           py_urljoin 2 "https://example.com" None init siblings_final
           siblings_run).
Defined.

Lemma index_stores_page_text_witness :
  (forall u text,
      In (u, text) (index siblings_final) ->
      In (u, text) (index init) \/
      exists body soup,
        siblings_get u = inr body /\ siblings_soup body = inr soup /\
        text = get_text soup) /\
  (index_in_visited init ->
   forall u body soup,
     u ∈ visited siblings_final -> u ∉ visited init ->
     siblings_get u = inr body -> siblings_soup body = inr soup ->
     In (u, get_text soup) (index siblings_final)).
Proof.
  exact (index_stores_page_text siblings_get siblings_soup py_urlparse
           py_urljoin 2 "https://example.com" None init siblings_final
           siblings_run).
Defined.

Lemma index_keys_stay_distinct_witness :
  NoDup (keys (index cyclic_final)) /\
  forall keyword, NoDup (fst (search sigma_lower keyword cyclic_final)).
Proof.
  apply (index_keys_stay_distinct cyclic_get cyclic_soup py_urlparse
           py_urljoin sigma_lower 4 "https://example.com" None init
           cyclic_final).
  - apply NoDup_nil_2.
  - exact cyclic_run.
Defined.

Lemma index_order_is_fetch_order_witness :
  exists t,
    trace siblings_final = trace init ++ t /\
    keys (index siblings_final)
    = keys (index init)
      ++ List.filter (indexable siblings_get siblings_soup) (gets t).
Proof.
  apply (index_order_is_fetch_order siblings_get siblings_soup py_urlparse
           py_urljoin 2 "https://example.com" None init siblings_final).
  - exact init_index_in_visited.
  - exact siblings_run.
Defined.

Lemma unresolvable_link_ends_page_witness :
  exists w1,
    follow_links py_urlparse py_urljoin
      (crawl siblings_get broken_soup py_urlparse py_urljoin 1)
      "https://example.com" None [Some "/a"]
      (index_set "https://example.com" "Home"
                 (fetching "https://example.com" None init))
    = Some (Normal w1) /\
    broken_final
    = log (Print ("Error crawling " +:+ "https://example.com" +:+ ": "
                  +:+ "Invalid IPv6 URL")) w1 /\
    In "https://example.com" (keys (index broken_final)).
Proof.
  apply (unresolvable_link_ends_page siblings_get broken_soup py_urlparse
           py_urljoin 1 "https://example.com" None init "https://example.com"
           {| get_text := "Home";
              find_all_a := [Some "/a"; Some "//["; Some "/b"] |}
           [Some "/a"] "//[" [Some "/b"] "Invalid IPv6 URL" broken_final).
  - apply init_fresh.
  - reflexivity.
  - reflexivity.
  - reflexivity.
  - intros h [[= <-]|[]] _. exists "https://example.com/a". reflexivity.
  - reflexivity.
  - reflexivity.
  - exact broken_run.
Defined.

Lemma crawl_visits_exactly_reachable_witness :
  "https://example.com/about" ∈ visited cyclic_final <->
  exists b,
    reach cyclic_get cyclic_soup py_urlparse py_urljoin
          "https://example.com" None "https://example.com/about" b.
Proof.
  apply (crawl_visits_exactly_reachable cyclic_get cyclic_soup py_urlparse
           py_urljoin 4 "https://example.com" None init cyclic_final).
  - exact cyclic_links_resolve.
  - discriminate.
  - exact init_fresh.
  - exact cyclic_run.
Defined.

Lemma crawl_extends_search_results_witness :
  (exists items, index cyclic_final = index init ++ items) /\
  (forall keyword,
      exists more,
        fst (search sigma_lower keyword cyclic_final)
        = fst (search sigma_lower keyword init) ++ more).
Proof.
  apply (crawl_extends_search_results cyclic_get cyclic_soup py_urlparse
           py_urljoin sigma_lower 4 "https://example.com" None init
           cyclic_final).
  - exact init_index_in_visited.
  - exact cyclic_run.
Defined.

Lemma search_keyword_case_and_narrowing_witness :
  (search sigma_lower "KEYWORD" test_pages
   = search sigma_lower "keyword" test_pages) /\
  In "page1" (fst (search sigma_lower "keyword" test_pages)).
Proof.
  destruct (search_keyword_case_and_narrowing sigma_lower test_pages
              "KEYWORD" "keyword" eq_refl eq_refl) as [Hcase _].
  destruct (search_keyword_case_and_narrowing sigma_lower test_pages
              "keyword" "the KEYWORD in" eq_refl eq_refl) as [_ Hnarrow].
  split.
  - exact (Hcase eq_refl).
  - refine (Hnarrow _ "page1" _).
    + exists "the ", "KEYWORD", " in". split; reflexivity.
    + vm_compute. now left.
Defined.

Lemma main_prints_matching_pages_witness :
  exists wc,
    crawl cyclic_get test_soup py_urlparse py_urljoin
          3 "https://example.com" None init = Some wc /\
    index main_final = index wc /\
    visited main_final = visited wc /\
    trace main_final
    = trace wc ++ presentation (fst (search sigma_lower "test" wc)) /\
    (forall line,
        In line (prints (trace wc)) ->
        exists u e, line = "Error crawling " +:+ u +:+ ": " +:+ e) /\
    (forall r,
        In r (fst (search sigma_lower "test" wc)) ->
        In (Get r) (trace wc) /\
        Str.startswith r "https://example.com" = true /\
        exists text, In (r, text) (index wc) /\ ci_substring "test" text).
Proof.
  destruct (main_prints_matching_pages cyclic_get test_soup py_urlparse
              py_urljoin sigma_lower 3 main_final main_run)
    as (wc & Hc & Hi & Hv & Ht & Hp & Hr).
  exists wc. split_and!; try assumption.
  intros r Hin. destruct (Hr r Hin) as (Hg & Hs & text & Htext & _ & Hci).
  split_and!; try assumption.
  exists text. split; [assumption|]. apply Hci. right.
  exact sigma_lower_images.
Defined.
